(** * Verification of the helper modules of react-2025

    Shallow embedding of
      - src/helpers/censorUtils.js  (censorWord, censorPhone, censorEmail,
        and the storage wrapper that follows them in the same file),
      - src/helpers/axiosAPIWrapper.js (module initialisation, the request
        interceptor, isValidJSON / safeParseJSON),
      - the string utilities (slugify, camelToSnake, snakeToCamel).

    A JavaScript string is a sequence of UTF-16 code units; it is modelled
    as [list N].  Built-ins of the platform whose tables are not part of
    the repository (String.prototype.toLowerCase / toUpperCase, JSON.parse,
    JSON.stringify) are Section variables, constrained only by the facts of
    ECMAScript the proofs need. *)

From Stdlib Require Import ZArith NArith Lia String Ascii DecimalString.
From stdpp Require Import base list gmap.

Local Open Scope N_scope.

(** ** JavaScript strings and values *)

Abbreviation jsstring := (list N).

(** The code units of an ASCII literal. *)
Fixpoint js (s : string) : jsstring :=
  match s with
  | EmptyString => []
  | String a r => N_of_ascii a :: js r
  end.

Definition STAR : N := 42.        (* '*' *)
Definition PLUS : N := 43.        (* '+' *)
Definition DASH : N := 45.        (* '-' *)
Definition DOT : N := 46.         (* '.' *)
Definition AT : N := 64.          (* '@' *)
Definition UNDERSCORE : N := 95.  (* '_' *)

(** The values that have a string form.  [VNum] covers the integer-valued
    Numbers (below 10^21 in magnitude, where String(n) is the plain decimal
    numeral); [VObj] is an object or array whose conversion to a string
    succeeds, known here only by the string it yields.  Symbols and objects
    whose conversion throws are added by [jsany] below, for the code that
    can receive them. *)
Inductive value : Type :=
  | VUndefined
  | VNull
  | VBool (b : bool)
  | VNum (n : Z)
  | VStr (s : jsstring)
  | VObj (repr : jsstring).

#[global] Instance value_eq_dec : EqDecision value.
Proof. solve_decision. Defined.

(** String(v), also the conversion applied by [+] and by template literals. *)
Definition ToString (v : value) : jsstring :=
  match v with
  | VUndefined => js "undefined"
  | VNull => js "null"
  | VBool true => js "true"
  | VBool false => js "false"
  | VNum n => js (NilZero.string_of_int (Z.to_int n))
  | VStr s => s
  | VObj repr => repr
  end.

(** ToBoolean(v), the test performed by [if (v)], [!v] and [v || d]. *)
Definition ToBoolean (v : value) : bool :=
  match v with
  | VUndefined | VNull => false
  | VBool b => b
  | VNum n => negb (n =? 0)%Z
  | VStr s => negb (bool_decide (s = []))
  | VObj _ => true
  end.

(** [str[i]]: a one-unit string, or undefined out of range. *)
Definition index (str : jsstring) (i : nat) : value :=
  match str !! i with
  | Some c => VStr [c]
  | None => VUndefined
  end.

(** [str.slice(start)], with a negative [start] counted from the end. *)
Definition slice (str : jsstring) (start : Z) : jsstring :=
  let len := Z.of_nat (length str) in
  let from := if (start <? 0)%Z then Z.max (len + start) 0 else Z.min start len in
  drop (Z.to_nat from) str.

(** [s.repeat(count)] for a non-negative count. *)
Definition repeat_str (s : jsstring) (count : nat) : jsstring :=
  concat (replicate count s).

(** ** censorUtils.js *)

(** censorWord (lines 12-17). *)
Definition censorWord (str : value) : jsstring :=
  match str with
  | VStr s =>
      if (length s =? 0)%nat then []
      else if (length s =? 1)%nat then [STAR]
      else if (length s =? 2)%nat then ToString (index s 0) ++ [STAR]
      else ToString (index s 0) ++ repeat_str [STAR] (length s - 2) ++ slice s (-1)
  | _ => []
  end.

(** *** Character classes of the regular expressions *)

Definition isDigit (c : N) : bool := (48 <=? c) && (c <=? 57).        (* \d, [0-9] *)
Definition isUpperAZ (c : N) : bool := (65 <=? c) && (c <=? 90).      (* [A-Z] *)
Definition isLowerAZ (c : N) : bool := (97 <=? c) && (c <=? 122).     (* [a-z] *)

(** \w is [A-Za-z0-9_] (no unicode or ignoreCase flag in the sources). *)
Definition isWordChar (c : N) : bool :=
  isUpperAZ c || isLowerAZ c || isDigit c || (c =? UNDERSCORE).

(** \s and the units removed by trim(): WhiteSpace and LineTerminator of
    ECMAScript (TAB, LF, VT, FF, CR, SP, NBSP, U+1680, U+2000..U+200A,
    U+2028, U+2029, U+202F, U+205F, U+3000, U+FEFF). *)
Definition isWhiteSpace (c : N) : bool :=
  ((9 <=? c) && (c <=? 13)) || (c =? 32) || (c =? 160) || (c =? 5760)
  || ((8192 <=? c) && (c <=? 8202)) || (c =? 8232) || (c =? 8233)
  || (c =? 8239) || (c =? 8287) || (c =? 12288) || (c =? 65279).

Definition isDash (c : N) : bool := c =? DASH.

(** [^\w-] *)
Definition isNotWordOrDash (c : N) : bool := negb (isWordChar c || isDash c).

(** *** String built-ins *)

Fixpoint takeWhile (p : N → bool) (s : jsstring) : jsstring :=
  match s with
  | c :: r => if p c then c :: takeWhile p r else []
  | [] => []
  end.

Fixpoint dropWhile (p : N → bool) (s : jsstring) : jsstring :=
  match s with
  | c :: r => if p c then dropWhile p r else s
  | [] => []
  end.

(** [s.trim()] *)
Definition trim (s : jsstring) : jsstring :=
  reverse (dropWhile isWhiteSpace (reverse (dropWhile isWhiteSpace s))).

(** [s.includes(c)] for a one-unit needle. *)
Definition includes (s : jsstring) (c : N) : bool := bool_decide (c ∈ s).

(** [s.split(sep)] for a one-unit separator: never the empty array. *)
Fixpoint split (sep : N) (s : jsstring) : list jsstring :=
  match s with
  | [] => [[]]
  | c :: r =>
      if c =? sep then [] :: split sep r
      else match split sep r with
           | part :: parts => (c :: part) :: parts
           | [] => [[c]]
           end
  end.

(** [parts.join(sep)] *)
Fixpoint join (sep : jsstring) (parts : list jsstring) : jsstring :=
  match parts with
  | [] => []
  | [p] => p
  | p :: ps => p ++ sep ++ join sep ps
  end.

(** [s.startsWith(prefix)] *)
Definition startsWith (s prefix : jsstring) : bool :=
  bool_decide (take (length prefix) s = prefix).

(** What a replace with a pattern [C+] (min = 1) or [CC+] (min = 2) puts
    in place of a maximal run of units of the class C. *)
Definition flushRun (min : nat) (rep run : jsstring) : jsstring :=
  if (min <=? length run)%nat then rep else run.

(** [s.replace(/C+/g, rep)] and [s.replace(/CC+/g, rep)]: scanning from the
    left, [run] holds the units of the class read since the last unit
    outside it; a maximal run of at least [min] units becomes [rep]. *)
Fixpoint replaceRunsFrom (cls : N → bool) (min : nat) (rep run s : jsstring)
  : jsstring :=
  match s with
  | [] => flushRun min rep run
  | c :: r =>
      if cls c then replaceRunsFrom cls min rep (run ++ [c]) r
      else flushRun min rep run ++ c :: replaceRunsFrom cls min rep [] r
  end.

Definition replaceRuns (cls : N → bool) (min : nat) (rep s : jsstring) : jsstring :=
  replaceRunsFrom cls min rep [] s.

(** [s.replace(/[C]/g, f)]: every unit of the class is replaced by what the
    replacer returns for it. *)
Fixpoint replaceEach (cls : N → bool) (f : jsstring → jsstring) (s : jsstring)
  : jsstring :=
  match s with
  | [] => []
  | c :: r => (if cls c then f [c] else [c]) ++ replaceEach cls f r
  end.

(** [s.replace(/_([a-z])/g, (match, p1) => f(p1))]: an underscore followed
    by a lower-case letter is replaced, both units consumed. *)
Fixpoint replaceUnderscoreLower (f : jsstring → jsstring) (s : jsstring)
  : jsstring :=
  match s with
  | [] => []
  | u :: r =>
      match r with
      | c :: r' =>
          if (u =? UNDERSCORE) && isLowerAZ c
          then f [c] ++ replaceUnderscoreLower f r'
          else u :: replaceUnderscoreLower f r
      | [] => [u]
      end
  end.

(** [number.match(/^\+\d+/)]: the matched text, or None for null.  The
    quantifier is greedy and nothing follows it, so the match takes every
    digit after the plus sign. *)
Definition matchCountryCode (number : jsstring) : option jsstring :=
  match number with
  | c :: r =>
      if c =? PLUS then
        match takeWhile isDigit r with
        | [] => None
        | digits => Some (c :: digits)
        end
      else None
  | [] => None
  end.

(** censorPhone (lines 30-41). *)
Definition censorPhone (number : value) : jsstring :=
  let number := match number with VStr s => s | v => ToString v end in
  let countryCodeMatch := matchCountryCode number in
  let '(countryCode, number) :=
    match countryCodeMatch with
    | Some m => (m, slice number (Z.of_nat (length m)))
    | None => ([], number)
    end in
  countryCode ++ censorWord (VStr number).

(** Lines 57-61 and 66-67 of censorEmail: what is emitted for the text
    taken as the domain. *)
Definition censorDomain (domain : jsstring) : jsstring :=
  let domainParts := split DOT domain in
  let domainName :=
    match domainParts !! 0%nat with Some d => VStr d | None => VUndefined end in
  let tld :=
    let joined := join [DOT] (drop 1 domainParts) in
    if ToBoolean (VStr joined) then joined else [] in
  censorWord domainName ++ (if ToBoolean (VStr tld) then [DOT] ++ tld else []).

(** censorEmail (lines 54-69).  The destructuring [local, domain] takes the
    first two parts of the split; a string that includes '@' always has
    them, so the last branch of the inner match is never reached. *)
Definition censorEmail (email : value) : value :=
  match email with
  | VStr s =>
      if negb (includes s AT) then email
      else
        match split AT s with
        | local :: domain :: _ =>
            VStr (censorWord (VStr local) ++ [AT] ++ censorDomain domain)
        | _ => email
        end
  | _ => email
  end.

(** censorFullName (lines 82-86).  [name.trim().split(/\s+/)] cuts the
    trimmed text at every maximal run of white space. *)
Definition SPACE : N := 32.       (* ' ' *)

(** [s.split(/C+/)] for a character class C: [cur] holds the units of the
    piece being read, [inrun] tells whether the last unit read was of the
    class.  A match at either end of the text leaves an empty piece there. *)
Fixpoint splitRunsFrom (cls : N → bool) (cur : jsstring) (inrun : bool)
    (s : jsstring) : list jsstring :=
  match s with
  | [] => [cur]
  | c :: r =>
      if cls c then
        if inrun then splitRunsFrom cls [] true r
        else cur :: splitRunsFrom cls [] true r
      else splitRunsFrom cls (cur ++ [c]) false r
  end.

Definition splitRuns (cls : N → bool) (s : jsstring) : list jsstring :=
  splitRunsFrom cls [] false s.

Definition censorFullName (name : value) : jsstring :=
  match name with
  | VStr s =>
      let parts := splitRuns isWhiteSpace (trim s) in
      join [SPACE] ((λ part, censorWord (VStr part)) <$> parts)
  | _ => []
  end.

(** ** Regular expressions tested against a whole string

    The patterns of the validators are anchored at both ends (^...$) and use
    only character classes, concatenation and repetition, so
    [pattern.test(str)] is membership of the whole text in a regular
    language; it is decided here with derivatives. *)

Inductive regex : Type :=
  | RNone
  | REps
  | RClass (p : N → bool)
  | RCat (r1 r2 : regex)
  | RAlt (r1 r2 : regex)
  | RStar (r : regex).

(** r+ *)
Definition RPlus (r : regex) : regex := RCat r (RStar r).

(** r{n} *)
Fixpoint RRep (n : nat) (r : regex) : regex :=
  match n with
  | O => REps
  | S k => RCat r (RRep k r)
  end.

(** r{0,n} *)
Fixpoint RUpTo (n : nat) (r : regex) : regex :=
  match n with
  | O => REps
  | S k => RAlt REps (RCat r (RUpTo k r))
  end.

(** r{m,n} *)
Definition RRange (m n : nat) (r : regex) : regex :=
  RCat (RRep m r) (RUpTo (n - m) r).

Fixpoint nullable (r : regex) : bool :=
  match r with
  | RNone => false
  | REps => true
  | RClass _ => false
  | RCat r1 r2 => nullable r1 && nullable r2
  | RAlt r1 r2 => nullable r1 || nullable r2
  | RStar _ => true
  end.

Fixpoint deriv (c : N) (r : regex) : regex :=
  match r with
  | RNone => RNone
  | REps => RNone
  | RClass p => if p c then REps else RNone
  | RCat r1 r2 =>
      if nullable r1 then RAlt (RCat (deriv c r1) r2) (deriv c r2)
      else RCat (deriv c r1) r2
  | RAlt r1 r2 => RAlt (deriv c r1) (deriv c r2)
  | RStar r1 => RCat (deriv c r1) (RStar r1)
  end.

(** [/^r$/.test(s)] *)
Fixpoint test (r : regex) (s : jsstring) : bool :=
  match s with
  | [] => nullable r
  | c :: t => test (deriv c r) t
  end.

(** The texts a pattern denotes. *)
Inductive lang : regex → jsstring → Prop :=
  | lang_eps : lang REps []
  | lang_class (p : N → bool) (c : N) : p c = true → lang (RClass p) [c]
  | lang_cat (r1 r2 : regex) (s1 s2 : jsstring) :
      lang r1 s1 → lang r2 s2 → lang (RCat r1 r2) (s1 ++ s2)
  | lang_alt_l (r1 r2 : regex) (s : jsstring) : lang r1 s → lang (RAlt r1 r2) s
  | lang_alt_r (r1 r2 : regex) (s : jsstring) : lang r2 s → lang (RAlt r1 r2) s
  | lang_star_nil (r : regex) : lang (RStar r) []
  | lang_star_cons (r : regex) (s1 s2 : jsstring) :
      lang r s1 → lang (RStar r) s2 → lang (RStar r) (s1 ++ s2).

(** ** The validators and formatters of the string utilities *)

Definition isLetter (c : N) : bool := isUpperAZ c || isLowerAZ c.   (* [a-zA-Z] *)
Definition isAlnum (c : N) : bool := isLetter c || isDigit c.       (* [a-zA-Z0-9] *)

(** [a-zA-Z0-9._-] and [a-zA-Z0-9.-] *)
Definition isEmailLocalChar (c : N) : bool :=
  isAlnum c || (c =? DOT) || (c =? UNDERSCORE) || (c =? DASH).
Definition isEmailDomainChar (c : N) : bool :=
  isAlnum c || (c =? DOT) || (c =? DASH).

(** /^[a-zA-Z0-9._-]+@[a-zA-Z0-9.-]+\.[a-zA-Z]{2,6}$/ *)
Definition emailPattern : regex :=
  RCat (RPlus (RClass isEmailLocalChar))
    (RCat (RClass (λ c, c =? AT))
       (RCat (RPlus (RClass isEmailDomainChar))
          (RCat (RClass (λ c, c =? DOT))
             (RRange 2 6 (RClass isLetter))))).

(** isValidEmail (lines 111-114); [test] converts its argument to a string. *)
Definition isValidEmail (str : value) : bool := test emailPattern (ToString str).

(** /^[0-9]{10}$/ *)
Definition phonePattern : regex := RRep 10 (RClass isDigit).

(** isValidPhoneNumber (lines 121-124). *)
Definition isValidPhoneNumber (str : value) : bool := test phonePattern (ToString str).

(** isEmptyOrWhitespace (lines 131-133): [!str || /^\s*$/.test(str)]. *)
Definition isEmptyOrWhitespace (str : value) : bool :=
  negb (ToBoolean str) || test (RStar (RClass isWhiteSpace)) (ToString str).

(** /^[A-Za-z]+$/ and /^[A-Za-z0-9]+$/ *)
Definition alphabetPattern : regex := RPlus (RClass isLetter).
Definition alphanumericPattern : regex := RPlus (RClass isAlnum).

(** isAlphabetic (lines 151-154) and isAlphanumeric (lines 161-164). *)
Definition isAlphabetic (str : value) : bool := test alphabetPattern (ToString str).
Definition isAlphanumeric (str : value) : bool := test alphanumericPattern (ToString str).

(** [str.charAt(i)]: a one-unit string, or the empty string out of range. *)
Definition charAt (str : jsstring) (i : nat) : jsstring :=
  match str !! i with
  | Some c => [c]
  | None => []
  end.

(** trimSpaces (lines 60-62). *)
Definition trimSpaces (str : jsstring) : jsstring := trim str.

(** replaceSpacesWithUnderscores (lines 87-89). *)
Definition replaceSpacesWithUnderscores (str : jsstring) : jsstring :=
  replaceRuns isWhiteSpace 1 [UNDERSCORE] str.

(** sanitizeFileName (lines 191-195). *)
Definition sanitizeFileName (str : jsstring) : jsstring :=
  replaceEach (λ c, negb (isWordChar c)) (λ _, [])
    (replaceRuns isWhiteSpace 1 [UNDERSCORE] str).

(** [s.replace(/\b(\w)/g, f)]: a word unit is replaced when it starts the
    text or follows a unit that is not a word unit; [prevWord] tells whether
    the unit before the current one is a word unit. *)
Fixpoint replaceWordStartFrom (f : jsstring → jsstring) (prevWord : bool)
    (s : jsstring) : jsstring :=
  match s with
  | [] => []
  | c :: r =>
      (if isWordChar c && negb prevWord then f [c] else [c])
      ++ replaceWordStartFrom f (isWordChar c) r
  end.

(** ** Effects: thrown errors, the console and the two Storage areas *)

(** What a [throw] carries: an error object with its name and message, or
    any other value (JSON.stringify runs the toJSON methods of its
    argument, which may throw null, a number, ...). *)
Inductive JSError : Type :=
  | ErrorObject (name message : jsstring)
  | Thrown (v : value).

(** [new Error(message)] *)
Definition Error (message : jsstring) : JSError := ErrorObject (js "Error") message.

(** A thrown value passed as a value (logged, or interpolated). *)
Definition error_value (e : JSError) : value :=
  match e with
  | ErrorObject name message => VObj (name ++ js ": " ++ message)
  | Thrown v => v
  end.

Inductive completion (A : Type) : Type :=
  | Normal (a : A)
  | Throw (e : JSError).
Arguments Normal {A} & a.
Arguments Throw {A} e.

#[global] Instance JSError_eq_dec : EqDecision JSError.
Proof. solve_decision. Defined.

(** [new TypeError(message)] *)
Definition TypeError (message : jsstring) : JSError :=
  ErrorObject (js "TypeError") message.

(** [error.name]: the name of an error object; reading a property of null
    or undefined throws a TypeError (the message is V8's), and another
    thrown value has no such property. *)
Definition err_name (e : JSError) : completion (option jsstring) :=
  match e with
  | ErrorObject name _ => Normal (Some name)
  | Thrown VNull =>
      Throw (TypeError (js "Cannot read properties of null (reading 'name')"))
  | Thrown VUndefined =>
      Throw (TypeError (js "Cannot read properties of undefined (reading 'name')"))
  | Thrown _ => Normal None
  end.

(** Any value an argument or a parsed JSON text can be: one with a string
    form, a Symbol, or an object whose conversion to a string throws
    [thrown], by [+] as well as in a template literal (such as the parsed
    text {"toString":0}, for which the engine throws a TypeError). *)
Inductive jsany : Type :=
  | Val (v : value)
  | VSymbol (description : jsstring)
  | VExotic (thrown : JSError).

Coercion Val : value >-> jsany.

#[global] Instance jsany_eq_dec : EqDecision jsany.
Proof. solve_decision. Defined.

(** The conversion to a string made by a template literal and by [+] with
    a string: it throws a TypeError on a Symbol (the message is V8's) and
    whatever the conversion of an exotic object throws. *)
Definition ToStringOrThrow (a : jsany) : completion jsstring :=
  match a with
  | Val v => Normal (ToString v)
  | VSymbol _ => Throw (TypeError (js "Cannot convert a Symbol value to a string"))
  | VExotic thrown => Throw thrown
  end.

(** ToBoolean on any value: Symbols and objects are truthy. *)
Definition truthy (a : jsany) : bool :=
  match a with
  | Val v => ToBoolean v
  | VSymbol _ | VExotic _ => true
  end.

Inductive LogLevel : Type := LevelError | LevelWarn | LevelLog.

Record LogEntry : Type := { level : LogLevel; args : list value }.

(** A Storage area keeps its entries in order (Storage.key(i) exposes it). *)
Abbreviation StorageArea := (list (jsstring * jsstring)).

Inductive StorageRef : Type := LocalRef | SessionRef.

(** The browser's state: the two areas, the console, and the browser's
    decision on a write, [refusal ref a]: None when it accepts [a] as the
    new content of the area, or the message of the QuotaExceededError it
    throws instead. *)
Record World : Type := {
  localStorage : StorageArea;
  sessionStorage : StorageArea;
  console : list LogEntry;
  refusal : StorageRef → StorageArea → option jsstring
}.

(** Computations that read and write the world and either return or throw. *)
Definition M (A : Type) : Type := World → completion A * World.

Definition ret {A} (a : A) : M A := fun w => (Normal a, w).

Definition bind {A B} (m : M A) (k : A → M B) : M B :=
  fun w => match m w with
           | (Normal a, w') => k a w'
           | (Throw e, w') => (Throw e, w')
           end.

Definition throw {A} (e : JSError) : M A := fun w => (Throw e, w).

(** [try { body } catch (error) { handler }] *)
Definition try_catch {A} (body : M A) (handler : JSError → M A) : M A :=
  fun w => match body w with
           | (Normal a, w') => (Normal a, w')
           | (Throw e, w') => handler e w'
           end.

Definition lift {A} (c : completion A) : M A := fun w => (c, w).

Notation "'let*' x ':=' m 'in' k" := (bind m (fun x => k))
  (at level 10, x name, m at level 100, k at level 200, only parsing).

Definition console_write (lvl : LogLevel) (xs : list value) : M unit :=
  fun w => (Normal tt,
            {| localStorage := localStorage w;
               sessionStorage := sessionStorage w;
               console := console w ++ [{| level := lvl; args := xs |}];
               refusal := refusal w |}).

Definition area (r : StorageRef) (w : World) : StorageArea :=
  match r with LocalRef => localStorage w | SessionRef => sessionStorage w end.

Definition set_area (r : StorageRef) (a : StorageArea) (w : World) : World :=
  match r with
  | LocalRef =>
      {| localStorage := a; sessionStorage := sessionStorage w;
         console := console w; refusal := refusal w |}
  | SessionRef =>
      {| localStorage := localStorage w; sessionStorage := a;
         console := console w; refusal := refusal w |}
  end.

(** The methods of a Storage object, on its entries.  Only setItem can
    fail (when the browser refuses the new content); a browser that denies
    every access to storage is not part of the model. *)
Fixpoint area_getItem (k : jsstring) (a : StorageArea) : option jsstring :=
  match a with
  | [] => None
  | (k', v) :: rest => if decide (k' = k) then Some v else area_getItem k rest
  end.

Fixpoint area_setItem (k v : jsstring) (a : StorageArea) : StorageArea :=
  match a with
  | [] => [(k, v)]
  | (k', v') :: rest =>
      if decide (k' = k) then (k, v) :: rest else (k', v') :: area_setItem k v rest
  end.

Definition area_removeItem (k : jsstring) (a : StorageArea) : StorageArea :=
  List.filter (fun kv => negb (bool_decide (kv.1 = k))) a.

(** [Storage.key(index)] takes a WebIDL unsigned long: an integer index is
    reduced modulo 2^32 before the lookup. *)
Definition area_key (i : Z) (a : StorageArea) : option jsstring :=
  fst <$> a !! Z.to_nat (i mod 4294967296).

Definition Storage_getItem (r : StorageRef) (k : jsstring) : M (option jsstring) :=
  fun w => (Normal (area_getItem k (area r w)), w).

Definition QuotaExceededError (message : jsstring) : JSError :=
  ErrorObject (js "QuotaExceededError") message.

Definition Storage_setItem (r : StorageRef) (k : jsstring) (v : value) : M unit :=
  fun w =>
    let a := area_setItem k (ToString v) (area r w) in
    match refusal w r a with
    | Some message => (Throw (QuotaExceededError message), w)
    | None => (Normal tt, set_area r a w)
    end.

Definition Storage_removeItem (r : StorageRef) (k : jsstring) : M unit :=
  fun w => (Normal tt, set_area r (area_removeItem k (area r w)) w).

Definition Storage_clear (r : StorageRef) : M unit :=
  fun w => (Normal tt, set_area r [] w).

Definition Storage_key (r : StorageRef) (i : Z) : M (option jsstring) :=
  fun w => (Normal (area_key i (area r w)), w).

Definition Storage_length (r : StorageRef) : M Z :=
  fun w => (Normal (Z.of_nat (length (area r w))), w).

(** ** The storage wrapper (censorUtils.js, lines 101-330) *)

Definition STORAGE_PREFIX : jsstring := js "my_app_".

(** getStorage (lines 116-124). *)
Definition getStorage (type : jsany) : completion StorageRef :=
  if decide (type = Val (VStr (js "local"))) then Normal LocalRef
  else if decide (type = Val (VStr (js "session"))) then Normal SessionRef
  else match ToStringOrThrow type with
       | Normal t =>
           Throw (Error (js "Invalid storage type provided: " ++ t
                         ++ js ". Use 'local' or 'session'."))
       | Throw e => Throw e
       end.

(** ** The Axios request configuration *)

Record RequestConfig : Type := {
  url : value;
  method : option jsstring;
  baseURL : value;
  timeout : Z;
  headers : gmap jsstring jsstring
}.

Definition set_header (name v : jsstring) (config : RequestConfig) : RequestConfig :=
  {| url := url config; method := method config; baseURL := baseURL config;
     timeout := timeout config; headers := <[name := v]> (headers config) |}.

(** ** Functions that call case conversion or the JSON built-ins *)

Section Platform.

(** String.prototype.toLowerCase / toUpperCase. *)
Variable toLowerCase toUpperCase : jsstring → jsstring.

(** JSON.parse on a string: None when it throws a SyntaxError. *)
Variable JSON_parse : jsstring → option jsany.

(** JSON.stringify: a string, undefined, or a thrown error object (a
    TypeError for a cyclic structure). *)
Variable JSON_stringify : jsany → completion value.

(** slugify (lines 97-104 of the string utilities). *)
Definition slugify (str : jsstring) : jsstring :=
  replaceRuns isDash 2 [DASH]
    (replaceRuns isNotWordOrDash 1 []
       (replaceRuns isWhiteSpace 1 [DASH]
          (trim (toLowerCase str)))).

(** camelToSnake (lines 171-173). *)
Definition camelToSnake (str : jsstring) : jsstring :=
  replaceEach isUpperAZ (fun m => [UNDERSCORE] ++ toLowerCase m) str.

(** snakeToCamel (lines 180-182). *)
Definition snakeToCamel (str : jsstring) : jsstring :=
  replaceUnderscoreLower (fun p1 => toUpperCase p1) str.

(** isValidJSON (axiosAPIWrapper.js, lines 268-275).  JSON.parse converts
    its argument to a string first, inside the try block. *)
Definition isValidJSON (v : jsany) : bool :=
  match ToStringOrThrow v with
  | Normal text =>
      match JSON_parse text with
      | Some _ => true
      | None => false
      end
  | Throw _ => false
  end.

(** safeParseJSON (lines 283-289). *)
Definition safeParseJSON (v : jsany) : jsany :=
  match ToStringOrThrow v with
  | Normal text =>
      match JSON_parse text with
      | Some parsed => parsed
      | None => VNull
      end
  | Throw _ => VNull
  end.

(** setItem (lines 147-166).  The template literals of the catch clause
    convert key and type to strings and the clause reads error.name,
    outside any try block. *)
Definition setItem (type key v : jsany) : M unit :=
  try_catch
    (let* storage := lift (getStorage type) in
     let* keyText := lift (ToStringOrThrow key) in
     let prefixedKey := STORAGE_PREFIX ++ keyText in
     let* stringValue := (match v with
                          | Val (VStr s) => ret (VStr s)
                          | _ => lift (JSON_stringify v)
                          end) in
     Storage_setItem storage prefixedKey stringValue)
    (fun error =>
       let* keyText := lift (ToStringOrThrow key) in
       let* typeText := lift (ToStringOrThrow type) in
       let* _ := console_write LevelError
         [VStr (js "Error setting item '" ++ keyText ++ js "' in "
                ++ typeText ++ js "Storage:"); error_value error] in
       let* name := lift (err_name error) in
       if decide (name = Some (js "QuotaExceededError")) then
         console_write LevelWarn
           [VStr (typeText ++ js "Storage quota exceeded! Could not store item '"
                  ++ keyText ++ js "'.")]
       else ret tt).

(** getItem (lines 189-211). *)
Definition getItem (type key : jsany) : M jsany :=
  try_catch
    (let* storage := lift (getStorage type) in
     let* keyText := lift (ToStringOrThrow key) in
     let prefixedKey := STORAGE_PREFIX ++ keyText in
     let* stringValue := Storage_getItem storage prefixedKey in
     match stringValue with
     | None => ret (Val VNull)
     | Some raw =>
         match JSON_parse raw with
         | Some parsed => ret parsed
         | None => ret (Val (VStr raw))
         end
     end)
    (fun error =>
       let* keyText := lift (ToStringOrThrow key) in
       let* typeText := lift (ToStringOrThrow type) in
       let* _ := console_write LevelError
         [VStr (js "Error getting item '" ++ keyText ++ js "' from "
                ++ typeText ++ js "Storage:"); error_value error] in
       ret (Val VNull)).

(** removeItem (lines 228-237). *)
Definition removeItem (type key : jsany) : M unit :=
  try_catch
    (let* storage := lift (getStorage type) in
     let* keyText := lift (ToStringOrThrow key) in
     let prefixedKey := STORAGE_PREFIX ++ keyText in
     Storage_removeItem storage prefixedKey)
    (fun error =>
       let* keyText := lift (ToStringOrThrow key) in
       let* typeText := lift (ToStringOrThrow type) in
       console_write LevelError
         [VStr (js "Error removing item '" ++ keyText ++ js "' from "
                ++ typeText ++ js "Storage:"); error_value error]).

(** clear (lines 253-261). *)
Definition clear (type : jsany) : M unit :=
  try_catch
    (let* storage := lift (getStorage type) in
     Storage_clear storage)
    (fun error =>
       let* typeText := lift (ToStringOrThrow type) in
       console_write LevelError
         [VStr (js "Error clearing " ++ typeText ++ js "Storage:");
          error_value error]).

(** key (lines 279-292), for an integer index. *)
Definition key (type : jsany) (i : Z) : M value :=
  try_catch
    (let* storage := lift (getStorage type) in
     let* prefixedKey := Storage_key storage i in
     match prefixedKey with
     | Some k =>
         if ToBoolean (VStr k) && startsWith k STORAGE_PREFIX
         then ret (VStr (drop (length STORAGE_PREFIX) k))
         else ret (VStr k)
     | None => ret VNull
     end)
    (fun error =>
       let* typeText := lift (ToStringOrThrow type) in
       let* _ := console_write LevelError
         [VStr (js "Error getting key at index " ++ ToString (VNum i) ++ js " from "
                ++ typeText ++ js "Storage:"); error_value error] in
       ret VNull).

(** length (lines 309-317). *)
Definition length_ (type : jsany) : M value :=
  try_catch
    (let* storage := lift (getStorage type) in
     let* n := Storage_length storage in
     ret (VNum n))
    (fun error =>
       let* typeText := lift (ToStringOrThrow type) in
       let* _ := console_write LevelError
         [VStr (js "Error getting length of " ++ typeText ++ js "Storage:");
          error_value error] in
       ret (VNum (-1))).

(** The request interceptor (axiosAPIWrapper.js, lines 36-51).  The
    template literal converts a truthy token to a string; nothing catches
    what that conversion throws. *)
Definition requestInterceptor (config : RequestConfig) : M RequestConfig :=
  let* authToken := getItem (VStr (js "local")) (VStr (js "auth")) in
  let* config :=
    (if truthy authToken
     then let* tokenText := lift (ToStringOrThrow authToken) in
          ret (set_header (js "Authorization") (js "Bearer " ++ tokenText) config)
     else ret config) in
  let* _ := console_write LevelLog
    [VStr (js "Request Interceptor:");
     match method config with
     | Some m => VStr (toUpperCase m)
     | None => VUndefined
     end;
     url config] in
  ret config.

(** The rejection callback registered with it (lines 52-56). *)
Definition requestInterceptorError (error : JSError) : M RequestConfig :=
  let* _ := console_write LevelError
              [VStr (js "Request Interceptor Error:"); error_value error] in
  throw error.

(** capitalizeFirstLetter (lines 50-53). *)
Definition capitalizeFirstLetter (str : value) : jsstring :=
  match str with
  | VStr s =>
      if negb (ToBoolean str) then []
      else toUpperCase (charAt s 0) ++ slice s 1
  | _ => []
  end.

(** toTitleCase (lines 140-144). *)
Definition toTitleCase (str : jsstring) : jsstring :=
  replaceWordStartFrom (λ m, toUpperCase m) false (toLowerCase str).

(** safeParse (axiosAPIWrapper.js, lines 306-312), with a parser that
    returns or throws. *)
Definition safeParse (v : jsany) (parser : jsany → completion jsany) : jsany :=
  match parser v with
  | Normal parsed => parsed
  | Throw _ => VNull
  end.

(** JSON.parse as a function of any value (the message of its SyntaxError
    is not modelled). *)
Definition JSON_parse_fn (v : jsany) : completion jsany :=
  match ToStringOrThrow v with
  | Normal text =>
      match JSON_parse text with
      | Some parsed => Normal parsed
      | None => Throw (ErrorObject (js "SyntaxError") [])
      end
  | Throw e => Throw e
  end.

End Platform.

(** ** Module initialisation of axiosAPIWrapper.js (lines 7-29) *)

Record AxiosInstance : Type := { defaults : RequestConfig }.

(** [axios.create({ baseURL, timeout: 10000, headers: {...} })] *)
Definition axios_create (base : value) : AxiosInstance :=
  {| defaults :=
       {| url := VUndefined; method := None; baseURL := base; timeout := 10000;
          headers := {[ js "Content-Type" := js "application/json";
                        js "Accept" := js "application/json" ]} |} |}.

(** [process.env.NAME]: a string, or undefined when the variable is unset. *)
Definition process_env (env : gmap jsstring jsstring) (name : jsstring) : value :=
  match env !! name with
  | Some s => VStr s
  | None => VUndefined
  end.

Definition loadPipelineModule (env : gmap jsstring jsstring) : M AxiosInstance :=
  let API_BASE_URL := process_env env (js "BASE_URL") in
  let* _ :=
    (if negb (ToBoolean API_BASE_URL) then
       let* _ := console_write LevelError
                   [VStr (js "BASE_URL environment variable is not set!")] in
       throw (Error (js "BASE_URL environment variable is not set!"))
     else ret tt) in
  ret (axios_create API_BASE_URL).

(** ** The configuration object *)

(** The backend URL of the configuration object (config.url.backend):
    [import.meta.env.VITE_BACK_URL || 'http://localhost:3001']. *)
Definition config_url_backend (env : gmap jsstring jsstring) : value :=
  let v := process_env env (js "VITE_BACK_URL") in
  if ToBoolean v then v else VStr (js "http://localhost:3001").

(** The other options of the configuration object that come from the
    environment (each is [import.meta.env.NAME || default]). *)
Definition env_or (env : gmap jsstring jsstring) (name : jsstring) (default : jsstring)
  : value :=
  let v := process_env env name in
  if ToBoolean v then v else VStr default.

Definition config_url_frontend (env : gmap jsstring jsstring) : value :=
  env_or env (js "VITE_FRONT_URL") (js "http://localhost:3000").
Definition config_appName (env : gmap jsstring jsstring) : value :=
  env_or env (js "VITE_APP_NAME") (js "MyApp").
Definition config_environment (env : gmap jsstring jsstring) : value :=
  env_or env (js "VITE_ENVIRONMENT") (js "development").
Definition config_jwt_secret (env : gmap jsstring jsstring) : value :=
  env_or env (js "VITE_JWT_SECRET") (js "secret").

(** ** Case conversion and JSON literals on ASCII text

    Instances of the platform functions on which the statements below can be
    evaluated: the ASCII case mappings, and a reader of the three JSON
    literal names. *)

Definition lowerUnit (c : N) : N := if isUpperAZ c then c + 32 else c.
Definition upperUnit (c : N) : N := if isLowerAZ c then c - 32 else c.

Definition asciiLower (s : jsstring) : jsstring := lowerUnit <$> s.
Definition asciiUpper (s : jsstring) : jsstring := upperUnit <$> s.

Definition parseLiteral (s : jsstring) : option jsany :=
  if decide (s = js "null") then Some (Val VNull)
  else if decide (s = js "true") then Some (Val (VBool true))
  else if decide (s = js "false") then Some (Val (VBool false))
  else None.

(** An empty browser that accepts every write. *)
Definition emptyWorld : World :=
  {| localStorage := []; sessionStorage := []; console := [];
     refusal := λ _ _, None |}.

(** The number of code units an area holds. *)
Definition area_size (a : StorageArea) : nat :=
  foldr (λ kv n, (length kv.1 + length kv.2 + n)%nat) 0%nat a.

(** An empty browser that refuses an area of more than [limit] units. *)
Definition quotaWorld (limit : nat) : World :=
  {| localStorage := []; sessionStorage := []; console := [];
     refusal := λ _ a, if (limit <? area_size a)%nat
                       then Some (js "The quota has been exceeded.")
                       else None |}.

(** ** Notions used in the statements *)


(** The world after one console.error call. *)
Definition logged_error (xs : list value) (w : World) : World :=
  (console_write LevelError xs w).2.

Definition AUTH_ENTRY : jsstring := js "my_app_auth".

(** The world after the interceptor's console.log call. *)
Definition logged_request (toUpperCase : jsstring → jsstring)
    (config : RequestConfig) (w : World) : World :=
  (console_write LevelLog
     [VStr (js "Request Interceptor:");
      match method config with
      | Some m => VStr (toUpperCase m)
      | None => VUndefined
      end;
      url config] w).2.

Definition plainConfig : RequestConfig :=
  (defaults (axios_create (VStr (js "https://api.example.com")))).

Definition worldWithToken (token : jsstring) : World :=
  {| localStorage := [(AUTH_ENTRY, token)]; sessionStorage := []; console := [];
     refusal := λ _ _, None |}.

(** The units a slug is made of: [a-z0-9_-]. *)
Definition isSlugChar (c : N) : bool :=
  isLowerAZ c || isDigit c || (c =? UNDERSCORE) || isDash c.

(** No two adjacent dashes. *)
Fixpoint noDoubleDash (s : jsstring) : Prop :=
  match s with
  | [] => True
  | a :: r =>
      match r with
      | b :: _ => ¬ (a = DASH ∧ b = DASH)
      | [] => True
      end ∧ noDoubleDash r
  end.

(** A word: non-empty and free of white space. *)
Definition isWord (w : jsstring) : Prop :=
  w ≠ [] ∧ Forall (λ c, isWhiteSpace c = false) w.

(** A gap: a non-empty run of white space. *)
Definition isGap (g : jsstring) : Prop :=
  g ≠ [] ∧ Forall (λ c, isWhiteSpace c = true) g.

(** The text made of a first word and further words, each after a gap. *)
Definition spaced (w : jsstring) (more : list (jsstring * jsstring)) : jsstring :=
  w ++ concat ((λ gw, gw.1 ++ gw.2) <$> more).

(** * Properties *)

(** ** Tactics *)

Ltac literal_not_elem :=
  let H := fresh in
  intros H;
  repeat (apply elem_of_cons in H as [H|H]; [discriminate H|]);
  by apply elem_of_nil in H.

Ltac unfold_classes :=
  unfold lowerUnit, upperUnit, isSlugChar, isNotWordOrDash, isWordChar,
    isWhiteSpace, isDash, isUpperAZ, isLowerAZ, isDigit,
    UNDERSCORE, DASH, STAR in *.

Ltac class_solve :=
  unfold_classes;
  repeat match goal with
         | |- context [if ?b then _ else _] => destruct b eqn:?
         end;
  rewrite <- ?not_true_iff_false in *;
  rewrite ?negb_true_iff, ?orb_true_iff, ?andb_true_iff,
    ?N.leb_le, ?N.eqb_eq in *;
  rewrite <- ?not_true_iff_false in *;
  rewrite ?orb_true_iff, ?andb_true_iff, ?N.leb_le, ?N.eqb_eq in *;
  lia.

(** ** censorWord *)

Example censorWord_hello : censorWord (VStr (js "hello")) = js "h***o".
Proof. reflexivity. Qed.

Example censorWord_hi : censorWord (VStr (js "hi")) = js "h*".
Proof. reflexivity. Qed.

Lemma repeat_str_single (x : N) (n : nat) : repeat_str [x] n = replicate n x.
Proof.
  unfold repeat_str. induction n as [|n IH]; simpl; [done|]. by rewrite IH.
Qed.

Lemma slice_last (s : jsstring) :
  (1 ≤ length s)%nat → slice s (-1) = drop (length s - 1) s.
Proof.
  intros Hlen. unfold slice. simpl.
  rewrite Z.max_l by lia. f_equal. lia.
Qed.

Lemma censorWord_long (s : jsstring) :
  (3 ≤ length s)%nat →
  censorWord (VStr s) =
    take 1 s ++ replicate (length s - 2) STAR ++ drop (length s - 1) s.
Proof.
  intros Hlen. unfold censorWord.
  destruct s as [|a [|b [|c r]]]; simpl in Hlen; try lia.
  cbn [length Nat.eqb index lookup list_lookup ToString take app].
  rewrite repeat_str_single, slice_last by (simpl; lia). done.
Qed.

(** C1. censorWord follows the policy table on every string (empty, one
    mask, first unit plus one mask, first unit + (len-2) masks + last unit),
    its output is as long as its input, for length >= 3 the first and last
    units are those of the input and every interior unit is the mask, and a
    value that is not a string yields the empty string. *)
Theorem censorWord_policy (s : jsstring) :
  (length s = 0%nat → censorWord (VStr s) = []) ∧
  (length s = 1%nat → censorWord (VStr s) = [STAR]) ∧
  (length s = 2%nat → censorWord (VStr s) = take 1 s ++ [STAR]) ∧
  ((3 ≤ length s)%nat →
     censorWord (VStr s) =
       take 1 s ++ replicate (length s - 2) STAR ++ drop (length s - 1) s) ∧
  length (censorWord (VStr s)) = length s ∧
  ((3 ≤ length s)%nat →
     censorWord (VStr s) !! 0%nat = s !! 0%nat ∧
     last (censorWord (VStr s)) = last s ∧
     ∀ i : nat, (0 < i < length s - 1)%nat → censorWord (VStr s) !! i = Some STAR) ∧
  (∀ v : value, (∀ t, v ≠ VStr t) → censorWord v = []).
Proof.
  split_and!.
  - by destruct s.
  - by destruct s as [|a [|b r]].
  - by destruct s as [|a [|b [|c r]]].
  - apply censorWord_long.
  - destruct (decide (3 ≤ length s)%nat) as [Hlen|Hlen].
    + rewrite censorWord_long by done.
      rewrite !length_app, length_take, length_replicate, length_drop. lia.
    + by destruct s as [|a [|b [|c r]]]; simpl in *; try lia.
  - intros Hlen. rewrite censorWord_long by done.
    destruct s as [|a t]; [simpl in Hlen; lia|]. simpl in Hlen.
    split_and!.
    + done.
    + rewrite !last_lookup.
      rewrite !length_app, length_take, length_replicate, length_drop.
      cbn [length]. rewrite lookup_app_r by (simpl; lia).
      rewrite lookup_app_r by (rewrite length_replicate; simpl; lia).
      rewrite lookup_drop. rewrite length_replicate. f_equal. simpl. lia.
    + intros i Hi. simpl in Hi. cbn [take].
      rewrite lookup_app_r by (simpl; lia).
      rewrite lookup_app_l by (rewrite length_replicate; simpl; lia).
      apply lookup_replicate_2. simpl. lia.
  - intros v Hv. destruct v; try done. by destruct (Hv s0).
Qed.

Lemma censorWord_policy_witness :
  censorWord (VStr (js "hello")) = js "h***o" ∧
  length (censorWord (VStr (js "hello"))) = 5%nat.
Proof.
  pose proof (censorWord_policy (js "hello")) as (_ & _ & _ & H3 & Hl & _).
  split.
  - rewrite H3 by (simpl; lia). reflexivity.
  - rewrite Hl. reflexivity.
Defined.

Lemma censorWord_Forall (P : N → Prop) (s : jsstring) :
  P STAR → Forall P s → Forall P (censorWord (VStr s)).
Proof.
  intros Hstar Hs.
  destruct (decide (3 ≤ length s)%nat) as [Hlen|Hlen].
  - rewrite censorWord_long by done.
    rewrite !Forall_app. split_and!.
    + by apply Forall_take.
    + by apply Forall_replicate.
    + by apply Forall_drop.
  - destruct s as [|a [|b [|c r]]]; simpl in Hlen; try lia.
    + constructor.
    + by repeat constructor.
    + apply Forall_cons in Hs as [Ha _]. by repeat constructor.
Qed.

(** ** censorPhone *)

Lemma takeWhile_all (p : N → bool) (s : jsstring) :
  Forall (λ c, p c = true) s → takeWhile p s = s.
Proof.
  induction 1 as [|c r Hc _ IH]; simpl; [done|]. by rewrite Hc, IH.
Qed.

(** A plus sign followed only by digits is matched whole by /^\+\d+/: the
    number comes back as it went in. *)
Lemma censorPhone_plus_digits (ds : jsstring) :
  ds ≠ [] → Forall (λ c, isDigit c = true) ds →
  censorPhone (VStr (PLUS :: ds)) = PLUS :: ds.
Proof.
  intros Hne Hds. unfold censorPhone, matchCountryCode.
  rewrite N.eqb_refl, takeWhile_all by done.
  destruct ds as [|d ds]; [done|].
  assert (slice (PLUS :: d :: ds) (Z.of_nat (length (PLUS :: d :: ds))) = []) as ->.
  { unfold slice.
    destruct (Z.ltb_spec (Z.of_nat (length (PLUS :: d :: ds))) 0) as [Hlt|_]; [lia|].
    rewrite Z.min_id, Nat2Z.id. apply drop_all. }
  simpl. by rewrite app_nil_r.
Qed.

(** Without a leading '+digit' the whole text goes through censorWord. *)
Lemma censorPhone_no_country_code (s : jsstring) :
  matchCountryCode s = None → censorPhone (VStr s) = censorWord (VStr s).
Proof. intros H. unfold censorPhone. by rewrite H. Qed.

(** C2. On "+1234567890" the pattern /^\+\d+/ matches the whole text, so
    the code returns it unmasked and not the documented "+1********0"; the
    number 9876543210 is converted to its decimal text and comes out as
    "9********0". *)
Theorem censorPhone_documented_examples :
  censorPhone (VStr (js "+1234567890")) = js "+1234567890" ∧
  censorPhone (VStr (js "+1234567890")) ≠ js "+1********0" ∧
  matchCountryCode (js "+1234567890") = Some (js "+1234567890") ∧
  censorPhone (VNum 9876543210) = js "9********0".
Proof. split_and!; [reflexivity | by vm_compute | reflexivity | reflexivity]. Qed.

(** ** censorEmail *)

Lemma split_nonempty (sep : N) (s : jsstring) : split sep s ≠ [].
Proof.
  induction s as [|c r IH]; simpl; [done|].
  destruct (c =? sep); [done|]. by destruct (split sep r).
Qed.

Lemma split_no_sep (sep : N) (s : jsstring) : sep ∉ s → split sep s = [s].
Proof.
  induction s as [|c r IH]; simpl; [done|].
  intros [Hc Hr]%not_elem_of_cons.
  destruct (N.eqb_spec c sep) as [->|_]; [done|]. by rewrite IH.
Qed.

Lemma split_at_first (sep : N) (a rest : jsstring) :
  sep ∉ a → split sep (a ++ sep :: rest) = a :: split sep rest.
Proof.
  induction a as [|c r IH]; simpl.
  - intros _. by rewrite N.eqb_refl.
  - intros [Hc Hr]%not_elem_of_cons.
    destruct (N.eqb_spec c sep) as [->|_]; [done|]. by rewrite IH.
Qed.

Lemma join_split (sep : N) (s : jsstring) : join [sep] (split sep s) = s.
Proof.
  induction s as [|c r IH]; simpl; [done|].
  destruct (N.eqb_spec c sep) as [->|Hne].
  - pose proof (split_nonempty sep r). destruct (split sep r) as [|p ps]; [done|].
    simpl in *. by rewrite IH.
  - pose proof (split_nonempty sep r). destruct (split sep r) as [|p ps]; [done|].
    destruct ps as [|q qs]; simpl in *; by rewrite <- IH.
Qed.

Lemma includes_true (s : jsstring) (c : N) : c ∈ s → includes s c = true.
Proof. intros H. unfold includes. by apply bool_decide_eq_true. Qed.

Lemma includes_false (s : jsstring) (c : N) : c ∉ s → includes s c = false.
Proof. intros H. unfold includes. by apply bool_decide_eq_false. Qed.

Lemma ToBoolean_str (s : jsstring) :
  (if ToBoolean (VStr s) then s else []) = s.
Proof. destruct s; done. Qed.

(** What censorDomain emits, by the shape of the domain text. *)
Lemma censorDomain_no_dot (label : jsstring) :
  DOT ∉ label → censorDomain label = censorWord (VStr label).
Proof.
  intros H. unfold censorDomain. rewrite split_no_sep by done.
  simpl. by rewrite app_nil_r.
Qed.

Lemma censorDomain_dot (label rest : jsstring) :
  DOT ∉ label →
  censorDomain (label ++ [DOT] ++ rest) =
    censorWord (VStr label) ++ (if decide (rest = []) then [] else [DOT] ++ rest).
Proof.
  intros H. unfold censorDomain.
  change (label ++ [DOT] ++ rest) with (label ++ DOT :: rest).
  rewrite split_at_first by done.
  cbn [lookup list_lookup drop]. rewrite drop_0, join_split, ToBoolean_str.
  destruct rest; done.
Qed.

Lemma censorDomain_Forall (P : N → Prop) (domain : jsstring) :
  P STAR → Forall P domain → Forall P (censorDomain domain).
Proof.
  intros Hstar Hd.
  destruct (decide (DOT ∈ domain)) as [Hin|Hnot].
  - apply list_elem_of_split_l in Hin as (label & rest & -> & Hlabel).
    change (label ++ DOT :: rest) with (label ++ [DOT] ++ rest) in *.
    rewrite censorDomain_dot by done.
    apply Forall_app in Hd as [Hl Hr]. apply Forall_app. split.
    + by apply censorWord_Forall.
    + case_decide; [constructor|done].
  - rewrite censorDomain_no_dot by done. by apply censorWord_Forall.
Qed.

(** The text up to the second '@' (or the whole text when there is only
    one) decides the result. *)
Lemma censorEmail_parts (a b rest : jsstring) :
  AT ∉ a → AT ∉ b → rest = [] ∨ (∃ c, rest = AT :: c) →
  censorEmail (VStr (a ++ [AT] ++ b ++ rest)) =
    VStr (censorWord (VStr a) ++ [AT] ++ censorDomain b).
Proof.
  intros Ha Hb Hrest. unfold censorEmail.
  rewrite includes_true by (rewrite !elem_of_app, elem_of_cons; auto).
  change (a ++ [AT] ++ b ++ rest) with (a ++ AT :: b ++ rest).
  rewrite split_at_first by done. simpl.
  destruct Hrest as [->|[c ->]].
  - rewrite app_nil_r, split_no_sep by done. done.
  - rewrite split_at_first by done. done.
Qed.

Lemma censorEmail_without_at (s : jsstring) :
  AT ∉ s → censorEmail (VStr s) = VStr s.
Proof. intros H. unfold censorEmail. by rewrite includes_false. Qed.

(** C3. With exactly one '@', the local part and the first dot-delimited
    label of the domain are censored independently by censorWord and the
    text after that label's dot is kept with its dot when it is not empty;
    a domain without a dot is censored whole; a string without '@' is
    returned unchanged. On the two examples of the function's own
    documentation the code does not return the documented values:
    censorEmail('john.doe@example.com') is "j******e@e*****e.com", with
    five mask characters in the domain label and not the documented six,
    and censorEmail('a@b.com') is "*@*.com", not the documented
    "a@b.com". *)
Theorem censorEmail_local_and_first_label :
  (∀ local label rest : jsstring,
     AT ∉ local → AT ∉ label → DOT ∉ label → AT ∉ rest → rest ≠ [] →
     censorEmail (VStr (local ++ [AT] ++ label ++ [DOT] ++ rest)) =
       VStr (censorWord (VStr local) ++ [AT] ++ censorWord (VStr label)
             ++ [DOT] ++ rest)) ∧
  (∀ local label : jsstring,
     AT ∉ local → AT ∉ label → DOT ∉ label →
     censorEmail (VStr (local ++ [AT] ++ label)) =
       VStr (censorWord (VStr local) ++ [AT] ++ censorWord (VStr label))) ∧
  censorEmail (VStr (js "john.doe@example.com")) = VStr (js "j******e@e*****e.com") ∧
  censorEmail (VStr (js "john.doe@example.com")) ≠ VStr (js "j******e@e******e.com") ∧
  censorEmail (VStr (js "a@b.com")) = VStr (js "*@*.com") ∧
  censorEmail (VStr (js "a@b.com")) ≠ VStr (js "a@b.com") ∧
  (∀ s : jsstring, AT ∉ s → censorEmail (VStr s) = VStr s).
Proof.
  split_and!.
  - intros local label rest Hl Hlab Hdot Hrest Hne.
    pose proof (censorEmail_parts local (label ++ [DOT] ++ rest) []) as H.
    rewrite app_nil_r in H. rewrite H.
    + rewrite censorDomain_dot by done. by case_decide.
    + done.
    + rewrite !elem_of_app, elem_of_cons, elem_of_nil.
      intros [?|[[?|[]]|?]]; done.
    + by left.
  - intros local label Hl Hlab Hdot.
    pose proof (censorEmail_parts local label []) as H.
    rewrite app_nil_r in H. rewrite H by auto.
    by rewrite censorDomain_no_dot.
  - reflexivity.
  - by vm_compute.
  - reflexivity.
  - by vm_compute.
  - apply censorEmail_without_at.
Qed.

Lemma censorEmail_local_and_first_label_witness :
  censorEmail (VStr (js "john.doe" ++ [AT] ++ js "example" ++ [DOT] ++ js "com")) =
    VStr (censorWord (VStr (js "john.doe")) ++ [AT] ++ censorWord (VStr (js "example"))
          ++ [DOT] ++ js "com").
Proof.
  apply (proj1 censorEmail_local_and_first_label);
    [literal_not_elem | literal_not_elem | literal_not_elem | literal_not_elem | done].
Defined.

(** A domain that ends at its first dot loses that dot. *)
Lemma censorEmail_trailing_dot :
  censorEmail (VStr (js "ab@cd.")) = VStr (js "a*@c*").
Proof. reflexivity. Qed.

Lemma split_length_app (sep : N) (u v : jsstring) :
  split sep (u ++ sep :: v) = split sep u ++ split sep v.
Proof.
  induction u as [|c u IH]; simpl.
  - by rewrite N.eqb_refl.
  - destruct (c =? sep); [by rewrite IH|].
    rewrite IH. pose proof (split_nonempty sep u).
    by destruct (split sep u).
Qed.

(** A text with two '@' has a first and a second one. *)
Lemma first_two_ats (x y z : jsstring) :
  ∃ a b c, x ++ [AT] ++ y ++ [AT] ++ z = a ++ [AT] ++ b ++ [AT] ++ c
           ∧ (AT ∉ a) ∧ (AT ∉ b).
Proof.
  assert (∀ u, AT ∈ u → ∃ b c, u = b ++ [AT] ++ c ∧ AT ∉ b) as Hfirst.
  { intros u Hu. apply list_elem_of_split_l in Hu as (b & c & -> & Hb). eauto. }
  induction x as [|h x (a & b & c & Heq & Ha & Hb)].
  - destruct (Hfirst (y ++ [AT] ++ z)) as (b & c & Heq & Hb).
    { rewrite !elem_of_app, elem_of_cons. auto. }
    exists [], b, c. simpl in *. rewrite Heq. split_and!; [done| |done].
    apply not_elem_of_nil.
  - destruct (decide (h = AT)) as [->|Hh].
    + destruct (Hfirst (x ++ [AT] ++ y ++ [AT] ++ z)) as (b' & c' & Heq' & Hb').
      { rewrite !elem_of_app, elem_of_cons. auto. }
      exists [], b', c'. simpl in *. rewrite Heq'. split_and!; [done| |done].
      apply not_elem_of_nil.
    + exists (h :: a), b, c. simpl in *. rewrite Heq. split_and!; [done| |done].
      apply not_elem_of_cons. auto.
Qed.

(** C9. A string with two or more '@' is cut at the second one: with a the
    text before the first '@' and b the text between the first and the
    second, the result is censorWord(a), one '@', and what censorEmail
    emits for the domain text b (its first label censored, the rest kept);
    it is the result for a@b alone, it contains a single '@', and it differs
    from the input. *)
Theorem censorEmail_cuts_at_second_at (x y z : jsstring) :
  ∃ a b c : jsstring,
    x ++ [AT] ++ y ++ [AT] ++ z = a ++ [AT] ++ b ++ [AT] ++ c ∧
    (AT ∉ a) ∧ (AT ∉ b) ∧
    censorEmail (VStr (x ++ [AT] ++ y ++ [AT] ++ z)) =
      VStr (censorWord (VStr a) ++ [AT] ++ censorDomain b) ∧
    censorEmail (VStr (x ++ [AT] ++ y ++ [AT] ++ z)) =
      censorEmail (VStr (a ++ [AT] ++ b)) ∧
    (AT ∉ censorWord (VStr a)) ∧ (AT ∉ censorDomain b) ∧
    (DOT ∉ b → censorDomain b = censorWord (VStr b)) ∧
    (∀ label rest, b = label ++ [DOT] ++ rest → DOT ∉ label →
       censorDomain b =
         censorWord (VStr label) ++ (if decide (rest = []) then [] else [DOT] ++ rest)) ∧
    censorEmail (VStr (x ++ [AT] ++ y ++ [AT] ++ z)) ≠
      VStr (x ++ [AT] ++ y ++ [AT] ++ z).
Proof.
  destruct (first_two_ats x y z) as (a & b & c & Heq & Ha & Hb).
  exists a, b, c. rewrite Heq.
  assert (AT ∉ censorWord (VStr a)) as Hca.
  { intros Hin.
    assert (Forall (λ u, u ≠ AT) (censorWord (VStr a))) as HF.
    { apply censorWord_Forall; [done|]. apply Forall_forall. intros u Hu ->. done. }
    rewrite Forall_forall in HF. by apply (HF AT). }
  assert (AT ∉ censorDomain b) as Hcb.
  { intros Hin.
    assert (Forall (λ u, u ≠ AT) (censorDomain b)) as HF.
    { apply censorDomain_Forall; [done|]. apply Forall_forall. intros u Hu ->. done. }
    rewrite Forall_forall in HF. by apply (HF AT). }
  assert (censorEmail (VStr (a ++ [AT] ++ b ++ [AT] ++ c)) =
          VStr (censorWord (VStr a) ++ [AT] ++ censorDomain b)) as Hout.
  { apply censorEmail_parts; eauto. }
  split_and!; try done.
  - rewrite Hout. pose proof (censorEmail_parts a b [] Ha Hb) as H.
    rewrite app_nil_r in H. rewrite H; auto.
  - apply censorDomain_no_dot.
  - intros label rest -> Hlabel. by apply censorDomain_dot.
  - rewrite Hout. intros [= Hsame].
    apply (f_equal (λ t, length (split AT t))) in Hsame.
    change (censorWord (VStr a) ++ [AT] ++ censorDomain b)
      with (censorWord (VStr a) ++ AT :: censorDomain b) in Hsame.
    change (a ++ [AT] ++ b ++ [AT] ++ c) with (a ++ AT :: b ++ AT :: c) in Hsame.
    rewrite !split_at_first, split_no_sep in Hsame by done.
    pose proof (split_nonempty AT c). destruct (split AT c); [done|].
    simpl in Hsame. lia.
Qed.

(** ** The storage wrapper *)


Lemma getStorage_local : getStorage (VStr (js "local")) = Normal LocalRef.
Proof. reflexivity. Qed.

Lemma getStorage_session : getStorage (VStr (js "session")) = Normal SessionRef.
Proof. reflexivity. Qed.

Lemma getStorage_valid (type : jsany) (r : StorageRef) :
  getStorage type = Normal r →
  type = Val (VStr (js "local")) ∨ type = Val (VStr (js "session")).
Proof.
  unfold getStorage. repeat case_decide; auto.
  by destruct (ToStringOrThrow type).
Qed.


Lemma logged_error_areas (xs : list value) (w : World) :
  localStorage (logged_error xs w) = localStorage w ∧
  sessionStorage (logged_error xs w) = sessionStorage w ∧
  console (logged_error xs w) = console w ++ [{| level := LevelError; args := xs |}].
Proof. done. Qed.

Section StorageWrapper.

Variable JSON_parse : jsstring → option jsany.
Variable JSON_stringify : jsany → completion value.


End StorageWrapper.



(** A Symbol as the kind is not caught for the caller: the catch clause
    itself throws a TypeError. *)
Lemma symbol_kind_reaches_the_caller :
  ∀ parse,
    getItem parse (VSymbol (js "cloud")) (VStr (js "auth")) emptyWorld =
      (Throw (TypeError (js "Cannot convert a Symbol value to a string")), emptyWorld).
Proof. intros parse. reflexivity. Qed.

(** ** The request interceptor *)

Section Interceptor.

Variable toUpperCase : jsstring → jsstring.
Variable JSON_parse : jsstring → option jsany.

(** What storage.getItem('local', 'auth') returns. *)
Lemma getItem_local_auth (w : World) :
  getItem JSON_parse (VStr (js "local")) (VStr (js "auth")) w =
    (Normal match area_getItem AUTH_ENTRY (localStorage w) with
            | None => Val VNull
            | Some raw => match JSON_parse raw with
                          | Some parsed => parsed
                          | None => Val (VStr raw)
                          end
            end, w).
Proof.
  unfold getItem, try_catch, bind, lift, Storage_getItem.
  rewrite getStorage_local.
  change (ToStringOrThrow (Val (VStr (js "auth")))) with (Normal (js "auth")).
  cbv beta iota.
  change (STORAGE_PREFIX ++ js "auth") with AUTH_ENTRY.
  cbn [area].
  destruct (area_getItem AUTH_ENTRY (localStorage w)) as [raw|]; [|done].
  by destruct (JSON_parse raw).
Qed.

(** The interceptor in terms of the value read from the store. *)
Lemma requestInterceptor_token (config : RequestConfig) (w : World) (authToken : jsany) :
  getItem JSON_parse (VStr (js "local")) (VStr (js "auth")) w = (Normal authToken, w) →
  requestInterceptor toUpperCase JSON_parse config w =
    if truthy authToken then
      match ToStringOrThrow authToken with
      | Normal text =>
          let config' :=
            set_header (js "Authorization") (js "Bearer " ++ text) config in
          (Normal config', logged_request toUpperCase config' w)
      | Throw e => (Throw e, w)
      end
    else (Normal config, logged_request toUpperCase config w).
Proof.
  intros Hget. unfold requestInterceptor, bind. rewrite Hget.
  destruct (truthy authToken); [|done].
  unfold lift. by destruct (ToStringOrThrow authToken).
Qed.

(** C4 (as the code has it). When localStorage holds under 'my_app_auth'
    a non-empty text that JSON.parse rejects, the interceptor returns the
    configuration with Authorization set to "Bearer " followed by that
    text, the other headers untouched; when the stored text parses to a
    value a, the header is "Bearer " followed by the string form of a when a
    is truthy and has one, the interceptor throws what the conversion of a
    throws when a is truthy and has none (the TypeError for the stored text
    {"toString":0}), and the configuration is returned as it came when a
    is falsy; when nothing is stored the configuration is returned as it
    came, so Authorization is absent exactly when the caller did not supply
    it. *)
Theorem requestInterceptor_authorization (config : RequestConfig) (w : World) :
  let out := (requestInterceptor toUpperCase JSON_parse config w).1 in
  (∀ token : jsstring,
     area_getItem AUTH_ENTRY (localStorage w) = Some token →
     JSON_parse token = None → token ≠ [] →
     ∃ config', out = Normal config' ∧
       headers config' !! js "Authorization" = Some (js "Bearer " ++ token) ∧
       (∀ name, name ≠ js "Authorization" →
                headers config' !! name = headers config !! name)) ∧
  (∀ (token : jsstring) (a : jsany),
     area_getItem AUTH_ENTRY (localStorage w) = Some token →
     JSON_parse token = Some a →
     out = if truthy a then
             match ToStringOrThrow a with
             | Normal text =>
                 Normal (set_header (js "Authorization") (js "Bearer " ++ text) config)
             | Throw e => Throw e
             end
           else Normal config) ∧
  (area_getItem AUTH_ENTRY (localStorage w) = None →
     out = Normal config ∧
     (headers config !! js "Authorization" = None →
      ∃ config', out = Normal config' ∧ headers config' !! js "Authorization" = None)).
Proof.
  intros out. subst out. split_and!.
  - intros token Hstored Hparse Hne.
    rewrite (requestInterceptor_token config w (Val (VStr token))).
    + replace (truthy (Val (VStr token))) with true by (by destruct token).
      eexists. split; [done|]. simpl. split.
      * apply lookup_insert_eq.
      * intros name Hname. by apply lookup_insert_ne.
    + by rewrite getItem_local_auth, Hstored, Hparse.
  - intros token a Hstored Hparse.
    rewrite (requestInterceptor_token config w a)
      by (by rewrite getItem_local_auth, Hstored, Hparse).
    destruct (truthy a); [|done]. by destruct (ToStringOrThrow a).
  - intros Hnone.
    rewrite (requestInterceptor_token config w (Val VNull))
      by (by rewrite getItem_local_auth, Hnone).
    simpl. split; [done|]. intros Habs. by exists config.
Qed.

End Interceptor.

Lemma requestInterceptor_authorization_witness :
  ∃ config',
    (requestInterceptor asciiUpper parseLiteral plainConfig
       (worldWithToken (js "abc.def.ghi"))).1 = Normal config' ∧
    headers config' !! js "Authorization" = Some (js "Bearer abc.def.ghi").
Proof.
  destruct (proj1 (requestInterceptor_authorization asciiUpper parseLiteral plainConfig
                     (worldWithToken (js "abc.def.ghi"))) (js "abc.def.ghi"))
    as (config' & Hout & Hhdr & _); [reflexivity | reflexivity | discriminate |].
  exists config'. split; [exact Hout | exact Hhdr].
Defined.

(** Two requests on which the outbound configuration is not what C4 says:
    with the text "false" stored under 'my_app_auth' (JSON.parse reads it
    as the boolean false) no Authorization header is set although a value
    is stored; and with nothing stored, a configuration that already
    carries an Authorization header leaves the interceptor with it. *)
Lemma authorization_header_exceptions :
  (area_getItem AUTH_ENTRY (localStorage (worldWithToken (js "false"))) = Some (js "false") ∧
   ∃ config',
     (requestInterceptor asciiUpper parseLiteral plainConfig
        (worldWithToken (js "false"))).1 = Normal config' ∧
     headers config' !! js "Authorization" = None) ∧
  (∀ toUpperCase JSON_parse,
     area_getItem AUTH_ENTRY (localStorage emptyWorld) = None ∧
     ∃ config',
       (requestInterceptor toUpperCase JSON_parse
          (set_header (js "Authorization") (js "Basic dXNlcg==") plainConfig)
          emptyWorld).1 = Normal config' ∧
       headers config' !! js "Authorization" = Some (js "Basic dXNlcg==")).
Proof.
  split.
  - split; [reflexivity|]. eexists. split; [reflexivity|]. by vm_compute.
  - intros toUpperCase JSON_parse. split; [reflexivity|].
    eexists. split; [reflexivity|]. simpl. apply lookup_insert_eq.
Qed.

(** A stored text that JSON.parse reads as a falsy value is treated like a
    missing credential, whatever the text. *)
Lemma requestInterceptor_falsy_credential
    (toUpperCase : jsstring → jsstring) (JSON_parse : jsstring → option jsany)
    (config : RequestConfig) (w : World) (token : jsstring) (a : jsany) :
  area_getItem AUTH_ENTRY (localStorage w) = Some token →
  JSON_parse token = Some a → truthy a = false →
  (requestInterceptor toUpperCase JSON_parse config w).1 = Normal config.
Proof.
  intros Hstored Hparse Hfalsy.
  rewrite (requestInterceptor_token toUpperCase JSON_parse config w a).
  - by rewrite Hfalsy.
  - by rewrite getItem_local_auth, Hstored, Hparse.
Qed.

(** A stored text that JSON.parse reads as an object without a string form
    makes the interceptor throw: nothing is logged and no configuration is
    returned. *)
Lemma requestInterceptor_unprintable_credential
    (toUpperCase : jsstring → jsstring) (JSON_parse : jsstring → option jsany)
    (config : RequestConfig) (w : World) (token : jsstring) (thrown : JSError) :
  area_getItem AUTH_ENTRY (localStorage w) = Some token →
  JSON_parse token = Some (VExotic thrown) →
  requestInterceptor toUpperCase JSON_parse config w = (Throw thrown, w).
Proof.
  intros Hstored Hparse.
  rewrite (requestInterceptor_token toUpperCase JSON_parse config w (VExotic thrown)).
  - done.
  - by rewrite getItem_local_auth, Hstored, Hparse.
Qed.

(** ** Module initialisation *)

(** C6. When BASE_URL is not set in the environment, loading the pipeline
    module logs the configuration error and throws it: no Axios instance is
    created, with an empty base URL or with any default. *)
Theorem pipeline_module_requires_base_url
    (env : gmap jsstring jsstring) (w : World) :
  env !! js "BASE_URL" = None →
  loadPipelineModule env w =
    (Throw (Error (js "BASE_URL environment variable is not set!")),
     logged_error [VStr (js "BASE_URL environment variable is not set!")] w) ∧
  ∀ inst w', loadPipelineModule env w ≠ (Normal inst, w').
Proof.
  intros Hunset.
  assert (loadPipelineModule env w =
    (Throw (Error (js "BASE_URL environment variable is not set!")),
     logged_error [VStr (js "BASE_URL environment variable is not set!")] w)) as Hload.
  { unfold loadPipelineModule, process_env. by rewrite Hunset. }
  split; [done|]. intros inst w'. by rewrite Hload.
Qed.

Lemma pipeline_module_requires_base_url_witness :
  loadPipelineModule ∅ emptyWorld =
    (Throw (Error (js "BASE_URL environment variable is not set!")),
     logged_error [VStr (js "BASE_URL environment variable is not set!")] emptyWorld).
Proof.
  apply (pipeline_module_requires_base_url ∅ emptyWorld). apply lookup_empty.
Defined.

(** An empty BASE_URL is refused in the same way, and a non-empty one
    becomes the base URL of the instance. *)
Lemma pipeline_module_base_url (env : gmap jsstring jsstring) (w : World) (base : jsstring) :
  env !! js "BASE_URL" = Some base →
  loadPipelineModule env w =
    if decide (base = []) then
      (Throw (Error (js "BASE_URL environment variable is not set!")),
       logged_error [VStr (js "BASE_URL environment variable is not set!")] w)
    else (Normal (axios_create (VStr base)), w).
Proof.
  intros Hset. unfold loadPipelineModule, process_env. rewrite Hset.
  by destruct base.
Qed.

(** The configuration object is a different matter: its backend URL reads
    another variable and does fall back to a default. *)
Lemma config_url_backend_default (env : gmap jsstring jsstring) :
  env !! js "VITE_BACK_URL" = None →
  config_url_backend env = VStr (js "http://localhost:3001").
Proof. intros H. unfold config_url_backend, process_env. by rewrite H. Qed.

(** ** isValidJSON and safeParseJSON *)

(** C10. On the text "null", which isValidJSON accepts, safeParseJSON
    returns null, and it returns the same null on a text JSON.parse
    rejects: the result does not tell the two apart. *)
Theorem safeParseJSON_null_is_ambiguous
    (JSON_parse : jsstring → option jsany) (bad : jsstring) :
  JSON_parse (js "null") = Some (Val VNull) →
  JSON_parse bad = None →
  isValidJSON JSON_parse (VStr (js "null")) = true ∧
  safeParseJSON JSON_parse (VStr (js "null")) = VNull ∧
  isValidJSON JSON_parse (VStr bad) = false ∧
  safeParseJSON JSON_parse (VStr bad) = VNull ∧
  safeParseJSON JSON_parse (VStr (js "null")) = safeParseJSON JSON_parse (VStr bad).
Proof.
  intros Hnull Hbad. unfold isValidJSON, safeParseJSON, ToStringOrThrow, ToString.
  by rewrite Hnull, Hbad.
Qed.

Lemma safeParseJSON_null_is_ambiguous_witness :
  isValidJSON parseLiteral (VStr (js "null")) = true ∧
  safeParseJSON parseLiteral (VStr (js "null")) = VNull ∧
  isValidJSON parseLiteral (VStr (js "{oops")) = false ∧
  safeParseJSON parseLiteral (VStr (js "{oops")) = VNull ∧
  safeParseJSON parseLiteral (VStr (js "null")) =
    safeParseJSON parseLiteral (VStr (js "{oops")).
Proof.
  apply (safeParseJSON_null_is_ambiguous parseLiteral (js "{oops")); reflexivity.
Defined.

(** ** slugify *)

Lemma slugChar_not_space (c : N) : isSlugChar c = true → isWhiteSpace c = false.
Proof. intros H. class_solve. Qed.

Lemma slugChar_kept (c : N) : isSlugChar c = true → isNotWordOrDash c = false.
Proof. intros H. class_solve. Qed.

Lemma slugChar_not_capital (c : N) : isSlugChar c = true → isUpperAZ c = false.
Proof. intros H. class_solve. Qed.

Lemma slugChar_ascii (c : N) : isSlugChar c = true → c < 128.
Proof. intros H. class_solve. Qed.

Lemma slugChar_lower_fixed (c : N) : isSlugChar c = true → lowerUnit c = c.
Proof. intros H. class_solve. Qed.

Lemma kept_not_capital_slugChar (c : N) :
  isNotWordOrDash c = false → isUpperAZ c = false → isSlugChar c = true.
Proof. intros H1 H2. class_solve. Qed.

Lemma lowerUnit_not_capital (c : N) : isUpperAZ (lowerUnit c) = false.
Proof. class_solve. Qed.

Lemma dropWhile_Forall (P : N → Prop) (p : N → bool) (s : jsstring) :
  Forall P s → Forall P (dropWhile p s).
Proof.
  induction 1 as [|c r Hc Hr IH]; simpl; [constructor|].
  destruct (p c); [done|by constructor].
Qed.

Lemma dropWhile_none (p : N → bool) (s : jsstring) :
  Forall (λ c, p c = false) s → dropWhile p s = s.
Proof. destruct 1 as [|c r Hc _]; simpl; [done|]. by rewrite Hc. Qed.

Lemma trim_Forall (P : N → Prop) (s : jsstring) : Forall P s → Forall P (trim s).
Proof.
  intros H. unfold trim.
  apply Forall_reverse, dropWhile_Forall, Forall_reverse. by apply dropWhile_Forall.
Qed.

Lemma trim_no_space (s : jsstring) :
  Forall (λ c, isWhiteSpace c = false) s → trim s = s.
Proof.
  intros H. unfold trim. rewrite (dropWhile_none _ s) by done.
  rewrite dropWhile_none by (by apply Forall_reverse).
  apply reverse_involutive.
Qed.

Lemma flushRun_Forall (P : N → Prop) (min : nat) (rep run : jsstring) :
  Forall P rep → Forall P run → Forall P (flushRun min rep run).
Proof. intros Hrep Hrun. unfold flushRun. by destruct (min <=? length run)%nat. Qed.

Lemma replaceRunsFrom_Forall (P : N → Prop) (cls : N → bool) (min : nat)
    (rep run s : jsstring) :
  Forall P rep → Forall P run → Forall P s →
  Forall P (replaceRunsFrom cls min rep run s).
Proof.
  intros Hrep Hrun Hs. revert run Hrun.
  induction Hs as [|c r Hc Hr IH]; intros run Hrun; simpl.
  - by apply flushRun_Forall.
  - destruct (cls c).
    + apply IH. apply Forall_app. split; [done|by constructor].
    + apply Forall_app. split; [by apply flushRun_Forall|].
      constructor; [done|]. apply IH. constructor.
Qed.

Lemma replaceRuns_Forall (P : N → Prop) (cls : N → bool) (min : nat) (rep s : jsstring) :
  Forall P rep → Forall P s → Forall P (replaceRuns cls min rep s).
Proof. intros. apply replaceRunsFrom_Forall; [done|constructor|done]. Qed.

(** A text without any unit of the class is left as it is. *)
Lemma replaceRuns_no_match (cls : N → bool) (min : nat) (rep s : jsstring) :
  (1 ≤ min)%nat → Forall (λ c, cls c = false) s → replaceRuns cls min rep s = s.
Proof.
  intros Hmin Hs. unfold replaceRuns.
  assert (flushRun min rep [] = []) as Hflush.
  { unfold flushRun. simpl. by destruct min; [lia|]. }
  induction Hs as [|c r Hc Hr IH]; simpl; [done|].
  by rewrite Hc, Hflush, IH.
Qed.

(** Removing the runs of a class leaves no unit of the class. *)
Lemma remove_runs_none_left (cls : N → bool) (run s : jsstring) :
  Forall (λ c, cls c = false) (replaceRunsFrom cls 1 [] run s).
Proof.
  assert (∀ run, flushRun 1 [] run = []) as Hflush.
  { intros [|c r]; done. }
  revert run. induction s as [|c r IH]; intros run; simpl.
  - rewrite Hflush. constructor.
  - destruct (cls c) eqn:Hc; [apply IH|].
    rewrite Hflush. simpl. by constructor.
Qed.

Lemma flushRun_dashes (run : jsstring) :
  Forall (λ c, isDash c = true) run →
  flushRun 2 [DASH] run = [] ∨ flushRun 2 [DASH] run = [DASH].
Proof.
  intros Hrun. unfold flushRun.
  destruct run as [|a [|b r]]; simpl; auto.
  apply Forall_cons in Hrun as [Ha _]. right. f_equal.
  unfold isDash in Ha. by apply N.eqb_eq in Ha.
Qed.

Lemma noDoubleDash_after_other (c : N) (s : jsstring) :
  isDash c = false → noDoubleDash s → noDoubleDash (c :: s).
Proof.
  intros Hc Hs. simpl. split; [|done].
  destruct s; [done|]. intros [-> _]. done.
Qed.

(** Collapsing the runs of dashes leaves no two adjacent dashes. *)
Lemma collapse_noDoubleDash (run s : jsstring) :
  Forall (λ c, isDash c = true) run →
  noDoubleDash (replaceRunsFrom isDash 2 [DASH] run s).
Proof.
  revert run. induction s as [|c r IH]; intros run Hrun; simpl.
  - destruct (flushRun_dashes run Hrun) as [-> | ->]; simpl; auto.
  - destruct (isDash c) eqn:Hc.
    + apply IH. apply Forall_app. split; [done|by repeat constructor].
    + assert (noDoubleDash (c :: replaceRunsFrom isDash 2 [DASH] [] r)) as Htail.
      { apply noDoubleDash_after_other; [done|]. apply IH. constructor. }
      destruct (flushRun_dashes run Hrun) as [-> | ->]; [done|].
      simpl. split; [|apply Htail].
      intros [_ ->]. done.
Qed.

(** A text without two adjacent dashes is left as it is. *)
Lemma collapse_fixed_from (run s : jsstring) :
  (length run ≤ 1)%nat → Forall (λ c, isDash c = true) run →
  noDoubleDash (run ++ s) →
  replaceRunsFrom isDash 2 [DASH] run s = run ++ s.
Proof.
  revert run. induction s as [|c r IH]; intros run Hlen Hrun Hnd; simpl.
  - rewrite app_nil_r. unfold flushRun.
    destruct run as [|a [|b t]]; simpl in *; try done; lia.
  - assert (flushRun 2 [DASH] run = run) as Hflush.
    { unfold flushRun. destruct run as [|a [|b t]]; simpl in *; try done; lia. }
    destruct (isDash c) eqn:Hc.
    + destruct run as [|a [|b t]]; simpl in Hlen; try lia.
      * apply (IH [c]); [simpl; lia|by repeat constructor|done].
      * apply Forall_cons in Hrun as [Ha _]. unfold isDash in Ha, Hc.
        apply N.eqb_eq in Ha, Hc. subst. simpl in Hnd. by destruct Hnd as [[] _].
    + rewrite Hflush. do 2 f_equal. apply (IH []); [simpl; lia|constructor|].
      clear -Hnd. induction run as [|a t IHt]; simpl in *; [tauto|].
      apply IHt. tauto.
Qed.

Lemma collapse_fixed (s : jsstring) :
  noDoubleDash s → replaceRuns isDash 2 [DASH] s = s.
Proof.
  intros H. apply (collapse_fixed_from [] s); [simpl; lia|constructor|done].
Qed.

Lemma asciiLower_slug_fixed (s : jsstring) :
  Forall (λ c, isSlugChar c = true) s → asciiLower s = s.
Proof.
  unfold asciiLower. induction 1 as [|c r Hc _ IH]; [done|].
  rewrite fmap_cons. f_equal; [by apply slugChar_lower_fixed|done].
Qed.

Lemma asciiLower_no_capital (s : jsstring) :
  Forall (λ c, isUpperAZ c = false) (asciiLower s).
Proof.
  unfold asciiLower. apply Forall_fmap, Forall_forall.
  intros c _. apply lowerUnit_not_capital.
Qed.

Section CaseConversion.

Variable toLowerCase toUpperCase : jsstring → jsstring.

(** On ASCII text the case conversions change the letters A-Z, resp. a-z,
    and nothing else. *)
Hypothesis toLowerCase_ascii :
  ∀ s, Forall (λ c, c < 128) s → toLowerCase s = asciiLower s.
Hypothesis toUpperCase_ascii :
  ∀ s, Forall (λ c, c < 128) s → toUpperCase s = asciiUpper s.

(** No lower-case mapping of Unicode yields one of the letters A-Z. *)
Hypothesis toLowerCase_no_capital :
  ∀ s, Forall (λ c, isUpperAZ c = false) (toLowerCase s).

(** A slug is made of [a-z0-9_-] and has no two adjacent dashes. *)
Lemma slugify_shape (x : jsstring) :
  Forall (λ c, isSlugChar c = true) (slugify toLowerCase x) ∧
  noDoubleDash (slugify toLowerCase x).
Proof.
  unfold slugify. split.
  - apply replaceRuns_Forall; [by repeat constructor|].
    set (t := replaceRuns isWhiteSpace 1 [DASH] (trim (toLowerCase x))).
    assert (Forall (λ c, isUpperAZ c = false) t) as Hcap.
    { apply replaceRuns_Forall; [by repeat constructor|].
      apply trim_Forall, toLowerCase_no_capital. }
    assert (Forall (λ c, isUpperAZ c = false) (replaceRuns isNotWordOrDash 1 [] t))
      as Hcap' by (apply replaceRuns_Forall; [constructor|done]).
    pose proof (remove_runs_none_left isNotWordOrDash [] t) as Hkept.
    fold (replaceRuns isNotWordOrDash 1 [] t) in Hkept.
    rewrite Forall_forall in Hcap', Hkept |- *.
    intros c Hc. apply kept_not_capital_slugChar; auto.
  - apply collapse_noDoubleDash. constructor.
Qed.

Lemma slugify_fixes_slugs (y : jsstring) :
  Forall (λ c, isSlugChar c = true) y → noDoubleDash y →
  slugify toLowerCase y = y.
Proof.
  intros Hy Hnd. unfold slugify.
  rewrite toLowerCase_ascii
    by (eapply Forall_impl; [exact Hy|apply slugChar_ascii]).
  rewrite asciiLower_slug_fixed by done.
  rewrite trim_no_space
    by (eapply Forall_impl; [exact Hy|apply slugChar_not_space]).
  rewrite (replaceRuns_no_match isWhiteSpace)
    by first [lia | eapply Forall_impl; [exact Hy|apply slugChar_not_space]].
  rewrite (replaceRuns_no_match isNotWordOrDash)
    by first [lia | eapply Forall_impl; [exact Hy|apply slugChar_kept]].
  by apply collapse_fixed.
Qed.

(** C7. slugify is idempotent: slugify(slugify(x)) = slugify(x) for every
    string x. *)
Theorem slugify_idempotent (x : jsstring) :
  slugify toLowerCase (slugify toLowerCase x) = slugify toLowerCase x.
Proof.
  destruct (slugify_shape x) as [Hchars Hnd]. by apply slugify_fixes_slugs.
Qed.

(** C8. camelToSnake and snakeToCamel are not inverse to each other: the
    text "a_b", which already has an underscore, comes back from
    snakeToCamel(camelToSnake(.)) as "aB", and the text "Ab", with a
    leading capital, comes back from camelToSnake(snakeToCamel(.)) as
    "_ab"; so a string x with snakeToCamel(camelToSnake(x)) different from
    x exists. *)
Theorem camel_snake_not_inverse :
  snakeToCamel toUpperCase (camelToSnake toLowerCase (js "a_b")) = js "aB" ∧
  camelToSnake toLowerCase (snakeToCamel toUpperCase (js "Ab")) = js "_ab" ∧
  (∃ x, snakeToCamel toUpperCase (camelToSnake toLowerCase x) ≠ x) ∧
  (∃ x, camelToSnake toLowerCase (snakeToCamel toUpperCase x) ≠ x).
Proof.
  assert (toUpperCase [98] = [66]) as Hb.
  { rewrite toUpperCase_ascii; [done|]. repeat constructor. }
  assert (toLowerCase [65] = [97]) as HA.
  { rewrite toLowerCase_ascii; [done|]. repeat constructor. }
  assert (snakeToCamel toUpperCase (camelToSnake toLowerCase (js "a_b")) = js "aB")
    as H1.
  { vm_compute. by rewrite Hb. }
  assert (camelToSnake toLowerCase (snakeToCamel toUpperCase (js "Ab")) = js "_ab")
    as H2.
  { transitivity (camelToSnake toLowerCase (js "Ab")); [reflexivity|].
    vm_compute. by rewrite HA. }
  split_and!; [done|done|..].
  - exists (js "a_b"). by rewrite H1.
  - exists (js "Ab"). by rewrite H2.
Qed.

(** A leading capital alone does survive camelToSnake followed by
    snakeToCamel. *)
Lemma leading_capital_round_trip :
  snakeToCamel toUpperCase (camelToSnake toLowerCase (js "Ab")) = js "Ab".
Proof.
  assert (toUpperCase [97] = [65]) as Ha.
  { rewrite toUpperCase_ascii; [done|]. repeat constructor. }
  assert (toLowerCase [65] = [97]) as HA.
  { rewrite toLowerCase_ascii; [done|]. repeat constructor. }
  unfold camelToSnake. vm_compute (replaceEach _ _ _).
  rewrite HA. vm_compute. by rewrite Ha.
Qed.

End CaseConversion.

Lemma slugify_idempotent_witness :
  slugify asciiLower (slugify asciiLower (js "Hello   World!!")) =
    slugify asciiLower (js "Hello   World!!").
Proof.
  apply (slugify_idempotent asciiLower).
  - intros s _. reflexivity.
  - apply asciiLower_no_capital.
Defined.

Lemma camel_snake_not_inverse_witness :
  snakeToCamel asciiUpper (camelToSnake asciiLower (js "a_b")) = js "aB".
Proof.
  apply (camel_snake_not_inverse asciiLower asciiUpper).
  - intros s _. reflexivity.
  - intros s _. reflexivity.
Defined.

Example slugify_hello_world : slugify asciiLower (js "Hello   World!!") = js "hello-world".
Proof. reflexivity. Qed.

(** * Further properties of the code *)

(** ** Matching by derivatives decides the language of a pattern *)

Lemma nullable_lang (r : regex) : nullable r = true ↔ lang r [].
Proof.
  induction r as [| |p|r1 IH1 r2 IH2|r1 IH1 r2 IH2|r IH]; simpl.
  - split; [done|]. inversion 1.
  - split; [constructor|done].
  - split; [done|]. inversion 1.
  - rewrite andb_true_iff, IH1, IH2. split.
    + intros [H1 H2]. by apply (lang_cat r1 r2 [] []).
    + inversion 1 as [| |? ? s1 s2 H1 H2 [Heq1 Heq2] Hs| | | |]; subst.
      by destruct s1, s2.
  - rewrite orb_true_iff, IH1, IH2. split.
    + intros [H|H]; [by apply lang_alt_l|by apply lang_alt_r].
    + inversion 1; subst; auto.
  - split; [constructor|done].
Qed.

Lemma lang_class_inv (p : N → bool) (s : jsstring) :
  lang (RClass p) s ↔ ∃ c, s = [c] ∧ p c = true.
Proof.
  split.
  - inversion 1; subst. eauto.
  - intros (c & -> & Hc). by constructor.
Qed.

Lemma lang_cat_inv (r1 r2 : regex) (s : jsstring) :
  lang (RCat r1 r2) s ↔ ∃ s1 s2, s = s1 ++ s2 ∧ lang r1 s1 ∧ lang r2 s2.
Proof.
  split.
  - inversion 1; subst. eauto.
  - intros (s1 & s2 & -> & H1 & H2). by constructor.
Qed.

(** A non-empty text of r* starts with a non-empty text of r. *)
Lemma lang_star_cons_inv (r : regex) (c : N) (s : jsstring) :
  lang (RStar r) (c :: s) →
  ∃ s1 s2, s = s1 ++ s2 ∧ lang r (c :: s1) ∧ lang (RStar r) s2.
Proof.
  intros H. remember (RStar r) as r' eqn:Hr. remember (c :: s) as t eqn:Ht.
  revert s Ht.
  induction H as [| | | | | |r0 s1 s2 H1 _ H2 IH2]; intros u Ht; try discriminate.
  injection Hr as ->.
  destruct s1 as [|c' s1]; simpl in Ht.
  - by apply IH2.
  - injection Ht as -> <-. by exists s1, s2.
Qed.

Lemma deriv_lang (c : N) (r : regex) (s : jsstring) :
  lang (deriv c r) s ↔ lang r (c :: s).
Proof.
  revert s. induction r as [| |p|r1 IH1 r2 IH2|r1 IH1 r2 IH2|r IH]; intros s; simpl.
  - split; inversion 1.
  - split; inversion 1.
  - destruct (p c) eqn:Hp; split.
    + inversion 1; subst. by constructor.
    + inversion 1; subst. constructor.
    + inversion 1.
    + inversion 1; subst. congruence.
  - assert (lang (RCat (deriv c r1) r2) s →
            lang (RCat r1 r2) (c :: s)) as Hfwd.
    { intros H. apply lang_cat_inv in H as (s1 & s2 & -> & H1 & H2).
      apply IH1 in H1. by apply (lang_cat r1 r2 (c :: s1) s2). }
    assert (lang (RCat r1 r2) (c :: s) →
            lang (RCat (deriv c r1) r2) s ∨ (lang r1 [] ∧ lang r2 (c :: s))) as Hbwd.
    { intros H. apply lang_cat_inv in H as (s1 & s2 & Heq & H1 & H2).
      destruct s1 as [|c' s1]; simplify_eq/=.
      - by right.
      - left. constructor; [by apply IH1|done]. }
    destruct (nullable r1) eqn:Hn; split.
    + inversion 1; subst; [by apply Hfwd|].
      apply nullable_lang in Hn. apply (lang_cat r1 r2 [] (c :: s)); [done|].
      by apply IH2.
    + intros H. destruct (Hbwd H) as [H1|[_ H2]].
      * by apply lang_alt_l.
      * apply lang_alt_r. by apply IH2.
    + apply Hfwd.
    + intros H. destruct (Hbwd H) as [H1|[H1 _]]; [done|].
      apply nullable_lang in H1. congruence.
  - split.
    + inversion 1; subst; [apply lang_alt_l, IH1|apply lang_alt_r, IH2]; done.
    + inversion 1; subst; [apply lang_alt_l, IH1|apply lang_alt_r, IH2]; done.
  - split.
    + intros H. apply lang_cat_inv in H as (s1 & s2 & -> & H1 & H2).
      apply IH in H1. by apply (lang_star_cons r (c :: s1) s2).
    + intros H. apply lang_star_cons_inv in H as (s1 & s2 & -> & H1 & H2).
      constructor; [by apply IH|done].
Qed.

Lemma test_lang (r : regex) (s : jsstring) : test r s = true ↔ lang r s.
Proof.
  revert r. induction s as [|c s IH]; intros r; simpl.
  - apply nullable_lang.
  - rewrite IH. apply deriv_lang.
Qed.

(** Repetitions of one character class. *)

Lemma lang_star_class (p : N → bool) (s : jsstring) :
  lang (RStar (RClass p)) s ↔ Forall (λ c, p c = true) s.
Proof.
  split.
  - intros H. remember (RStar (RClass p)) as r eqn:Hr.
    induction H as [| | | | | |r0 s1 s2 H1 _ H2 IH2]; try discriminate.
    + constructor.
    + injection Hr as ->. apply lang_class_inv in H1 as (c & -> & Hc).
      constructor; [done|]. by apply IH2.
  - induction 1 as [|c s Hc _ IH]; [constructor|].
    apply (lang_star_cons (RClass p) [c] s); [by constructor|done].
Qed.

Lemma lang_plus_class (p : N → bool) (s : jsstring) :
  lang (RPlus (RClass p)) s ↔ s ≠ [] ∧ Forall (λ c, p c = true) s.
Proof.
  unfold RPlus. rewrite lang_cat_inv. split.
  - intros (s1 & s2 & -> & H1 & H2).
    apply lang_class_inv in H1 as (c & -> & Hc). apply lang_star_class in H2.
    split; [done|]. by constructor.
  - intros [Hne Hall]. destruct Hall as [|c s Hc Hs]; [done|].
    exists [c], s. split_and!; [done|by constructor|by apply lang_star_class].
Qed.

Lemma lang_rep_class (p : N → bool) (n : nat) (s : jsstring) :
  lang (RRep n (RClass p)) s ↔ length s = n ∧ Forall (λ c, p c = true) s.
Proof.
  revert s. induction n as [|n IH]; intros s; simpl.
  - split.
    + inversion 1. by split; [|constructor].
    + intros [Hlen _]. destruct s; [constructor|done].
  - rewrite lang_cat_inv. split.
    + intros (s1 & s2 & -> & H1 & H2).
      apply lang_class_inv in H1 as (c & -> & Hc). apply IH in H2 as [Hlen Hall].
      simpl. split; [by rewrite Hlen|by constructor].
    + intros [Hlen Hall]. destruct Hall as [|c s Hc Hs]; [done|].
      exists [c], s. split_and!; [done|by constructor|].
      apply IH. split; [by injection Hlen|done].
Qed.

Lemma lang_upto_class (p : N → bool) (n : nat) (s : jsstring) :
  lang (RUpTo n (RClass p)) s ↔ (length s ≤ n)%nat ∧ Forall (λ c, p c = true) s.
Proof.
  revert s. induction n as [|n IH]; intros s; simpl.
  - split.
    + inversion 1. by split; [|constructor].
    + intros [Hlen _]. destruct s; [constructor|simpl in Hlen; lia].
  - split.
    + inversion 1 as [| | |? ? ? H1|? ? ? H1| |]; subst.
      * inversion H1. split; [simpl; lia|constructor].
      * apply lang_cat_inv in H1 as (s1 & s2 & -> & H1 & H2).
        apply lang_class_inv in H1 as (c & -> & Hc). apply IH in H2 as [Hlen Hall].
        simpl. split; [lia|by constructor].
    + intros [Hlen Hall]. destruct Hall as [|c s Hc Hs].
      * apply lang_alt_l. constructor.
      * apply lang_alt_r. apply (lang_cat _ _ [c] s); [by constructor|].
        apply IH. simpl in Hlen. split; [lia|done].
Qed.

Lemma lang_range_class (p : N → bool) (m n : nat) (s : jsstring) :
  (m ≤ n)%nat →
  lang (RRange m n (RClass p)) s ↔
    (m ≤ length s ≤ n)%nat ∧ Forall (λ c, p c = true) s.
Proof.
  intros Hmn. unfold RRange. rewrite lang_cat_inv. split.
  - intros (s1 & s2 & -> & H1 & H2).
    apply lang_rep_class in H1 as [Hl1 Ha1]. apply lang_upto_class in H2 as [Hl2 Ha2].
    rewrite length_app. split; [lia|]. by apply Forall_app.
  - intros [Hlen Hall]. exists (take m s), (drop m s). split_and!.
    + by rewrite take_drop.
    + apply lang_rep_class. split; [rewrite length_take; lia|by apply Forall_take].
    + apply lang_upto_class. split; [rewrite length_drop; lia|by apply Forall_drop].
Qed.

(** ** The validators *)

Lemma censorWord_length (s : jsstring) : length (censorWord (VStr s)) = length s.
Proof.
  destruct (decide (3 ≤ length s)%nat) as [Hlen|Hlen].
  - rewrite censorWord_long by done.
    rewrite !length_app, length_take, length_replicate, length_drop. lia.
  - by destruct s as [|a [|b [|c r]]]; simpl in *; try lia.
Qed.

Lemma censorPhone_ToString (v : value) :
  censorPhone v =
    match matchCountryCode (ToString v) with
    | Some m => m ++ censorWord (VStr (slice (ToString v) (Z.of_nat (length m))))
    | None => censorWord (VStr (ToString v))
    end.
Proof.
  unfold censorPhone.
  replace (match v with VStr s => s | _ => ToString v end) with (ToString v)
    by (by destruct v).
  by destruct (matchCountryCode (ToString v)).
Qed.

Lemma isValidPhoneNumber_digits (v : value) :
  isValidPhoneNumber v = true ↔
    length (ToString v) = 10%nat ∧ Forall (λ c, isDigit c = true) (ToString v).
Proof.
  unfold isValidPhoneNumber, phonePattern. rewrite test_lang.
  apply lang_rep_class.
Qed.

(** X4. isValidPhoneNumber accepts a value exactly when its string form is
    ten decimal digits, nothing before, between or after them. *)
Theorem isValidPhoneNumber_iff (v : value) :
  isValidPhoneNumber v = true ↔
    length (ToString v) = 10%nat ∧ Forall (λ c, isDigit c = true) (ToString v).
Proof.
  unfold isValidPhoneNumber, phonePattern. rewrite test_lang.
  rewrite lang_rep_class. done.
Qed.

(** X5. A value accepted by isValidPhoneNumber is censored by censorPhone to
    its first digit, eight masks and its last digit. *)
Theorem censorPhone_of_valid_number (v : value) :
  isValidPhoneNumber v = true →
  censorPhone v =
    take 1 (ToString v) ++ replicate 8 STAR ++ drop 9 (ToString v).
Proof.
  intros [Hlen Hdigits]%isValidPhoneNumber_digits.
  rewrite censorPhone_ToString.
  assert (matchCountryCode (ToString v) = None) as ->.
  { destruct (ToString v) as [|c r]; [done|]. simpl.
    apply Forall_cons in Hdigits as [Hc _].
    destruct (N.eqb_spec c PLUS) as [->|_]; [discriminate Hc|done]. }
  rewrite censorWord_long by lia. by rewrite Hlen.
Qed.

Lemma censorPhone_of_valid_number_witness :
  censorPhone (VNum 5551234567) = js "5********7".
Proof.
  exact (censorPhone_of_valid_number (VNum 5551234567) eq_refl).
Defined.

Lemma isValidEmail_shape (v : value) :
  isValidEmail v = true ↔
    ∃ local domain tld : jsstring,
      ToString v = local ++ [AT] ++ domain ++ [DOT] ++ tld ∧
      local ≠ [] ∧ Forall (λ c, isEmailLocalChar c = true) local ∧
      domain ≠ [] ∧ Forall (λ c, isEmailDomainChar c = true) domain ∧
      (2 ≤ length tld ≤ 6)%nat ∧ Forall (λ c, isLetter c = true) tld.
Proof.
  unfold isValidEmail, emailPattern. rewrite test_lang. split.
  - intros H.
    apply lang_cat_inv in H as (local & s1 & Hs & Hlocal & H).
    apply lang_cat_inv in H as (at_ & s2 & -> & Hat & H).
    apply lang_cat_inv in H as (domain & s3 & -> & Hdomain & H).
    apply lang_cat_inv in H as (dot & tld & -> & Hdot & Htld).
    apply lang_class_inv in Hat as (c & -> & ->%N.eqb_eq).
    apply lang_class_inv in Hdot as (c & -> & ->%N.eqb_eq).
    apply lang_plus_class in Hlocal as [? ?].
    apply lang_plus_class in Hdomain as [? ?].
    apply lang_range_class in Htld as [? ?]; [|lia].
    exists local, domain, tld. split_and!; first [done|lia].
  - intros (local & domain & tld & -> & ? & ? & ? & ? & ? & ?).
    apply lang_cat; [by apply lang_plus_class|].
    apply lang_cat; [by constructor|].
    apply lang_cat; [by apply lang_plus_class|].
    apply lang_cat; [by constructor|].
    by apply lang_range_class; [lia|].
Qed.

(** X6. isValidEmail accepts a value exactly when its string form is
    local@domain.tld with a non-empty local part over [a-zA-Z0-9._-], a
    non-empty domain over [a-zA-Z0-9.-] and two to six letters after the
    last dot. *)
Theorem isValidEmail_iff (v : value) :
  isValidEmail v = true ↔
    ∃ local domain tld : jsstring,
      ToString v = local ++ [AT] ++ domain ++ [DOT] ++ tld ∧
      local ≠ [] ∧ Forall (λ c, isEmailLocalChar c = true) local ∧
      domain ≠ [] ∧ Forall (λ c, isEmailDomainChar c = true) domain ∧
      (2 ≤ length tld ≤ 6)%nat ∧ Forall (λ c, isLetter c = true) tld.
Proof.
  unfold isValidEmail, emailPattern. rewrite test_lang. split.
  - intros H.
    apply lang_cat_inv in H as (local & s1 & Hs & Hlocal & H).
    apply lang_cat_inv in H as (at_ & s2 & -> & Hat & H).
    apply lang_cat_inv in H as (domain & s3 & -> & Hdomain & H).
    apply lang_cat_inv in H as (dot & tld & -> & Hdot & Htld).
    apply lang_class_inv in Hat as (c & -> & ->%N.eqb_eq).
    apply lang_class_inv in Hdot as (c & -> & ->%N.eqb_eq).
    apply lang_plus_class in Hlocal as [? ?].
    apply lang_plus_class in Hdomain as [? ?].
    apply lang_range_class in Htld as [? ?]; [|lia].
    exists local, domain, tld. split_and!; first [done|lia].
  - intros (local & domain & tld & -> & ? & ? & ? & ? & ? & ?).
    apply lang_cat; [by apply lang_plus_class|].
    apply lang_cat; [by constructor|].
    apply lang_cat; [by apply lang_plus_class|].
    apply lang_cat; [by constructor|].
    by apply lang_range_class; [lia|].
Qed.

Lemma emailLocalChar_not_at (c : N) : isEmailLocalChar c = true → c ≠ AT.
Proof.
  unfold isEmailLocalChar, isAlnum, isLetter. intros H ->. revert H. by vm_compute.
Qed.

Lemma emailDomainChar_not_at (c : N) : isEmailDomainChar c = true → c ≠ AT.
Proof.
  unfold isEmailDomainChar, isAlnum, isLetter. intros H ->. revert H. by vm_compute.
Qed.

Lemma letter_not_dot_at (c : N) : isLetter c = true → c ≠ DOT ∧ c ≠ AT.
Proof.
  unfold isLetter. intros H. split; intros ->; revert H; by vm_compute.
Qed.

Lemma Forall_not_elem (P : N → Prop) (x : N) (s : jsstring) :
  Forall P s → ¬ P x → x ∉ s.
Proof. intros Hall Hx Hin. rewrite Forall_forall in Hall. auto. Qed.

(** A domain text whose first dot is followed by something keeps its
    length under censorDomain. *)
Lemma censorDomain_dot_length (label rest : jsstring) :
  DOT ∉ label → rest ≠ [] →
  length (censorDomain (label ++ [DOT] ++ rest)) = length (label ++ [DOT] ++ rest).
Proof.
  intros Hlabel Hrest. rewrite censorDomain_dot by done.
  rewrite decide_False by done.
  rewrite !length_app, censorWord_length. done.
Qed.

(** X7. On an address accepted by isValidEmail, censorEmail returns a text of
    the same length that still ends with the dot and the letters after the
    last dot. *)
Theorem censorEmail_of_valid_email (s : jsstring) :
  isValidEmail (VStr s) = true →
  ∃ (out pre tld : jsstring),
    censorEmail (VStr s) = VStr out ∧
    length out = length s ∧
    out = pre ++ [DOT] ++ tld ∧
    (∃ before, s = before ++ [DOT] ++ tld) ∧
    (2 ≤ length tld ≤ 6)%nat ∧ Forall (λ c, isLetter c = true) tld.
Proof.
  intros (local & domain & tld & Hs & Hl & Hlocal & Hd & Hdomain & Hlen & Htld)
    %isValidEmail_shape.
  unfold ToString in Hs. subst s.
  assert (AT ∉ local) as Hat1.
  { eapply Forall_not_elem; [exact Hlocal|]. intros H.
    by apply emailLocalChar_not_at in H. }
  assert (AT ∉ domain ++ [DOT] ++ tld) as Hat2.
  { rewrite !elem_of_app, elem_of_cons, elem_of_nil.
    intros [Hin|[[Hin|[]]|Hin]].
    - revert Hin. eapply Forall_not_elem; [exact Hdomain|]. intros H.
      by apply emailDomainChar_not_at in H.
    - done.
    - revert Hin. eapply Forall_not_elem; [exact Htld|]. intros H.
      by apply letter_not_dot_at in H as [_ ?]. }
  assert (DOT ∉ tld) as Hdot.
  { eapply Forall_not_elem; [exact Htld|]. intros H.
    by apply letter_not_dot_at in H as [? _]. }
  pose proof (censorEmail_parts local (domain ++ [DOT] ++ tld) [] Hat1 Hat2) as Hout.
  rewrite app_nil_r in Hout. rewrite Hout by auto.
  assert (DOT ∈ domain ++ [DOT] ++ tld) as Hin
    by (rewrite !elem_of_app, elem_of_cons; auto).
  apply list_elem_of_split_l in Hin as (label & rest & Heq & Hlabel).
  assert (rest = tld ∨ ∃ mid, rest = mid ++ [DOT] ++ tld) as Hrest.
  { change (domain ++ [DOT] ++ tld) with (domain ++ DOT :: tld) in Heq.
    symmetry in Heq. apply app_eq_inv in Heq as [(k & Hk1 & Hk2)|(k & Hk1 & Hk2)].
    - destruct k as [|d k]; simplify_eq/=; [by left|].
      exfalso. apply Hlabel. rewrite elem_of_app, elem_of_cons. auto.
    - destruct k as [|d k]; simplify_eq/=; [by left|]. right. by exists k. }
  assert (rest ≠ []) as Hne.
  { destruct Hrest as [->|[mid ->]]; [|by destruct mid].
    intros ->. simpl in Hlen. lia. }
  rewrite Heq.
  change (label ++ DOT :: rest) with (label ++ [DOT] ++ rest).
  exists (censorWord (VStr local) ++ [AT] ++ censorDomain (label ++ [DOT] ++ rest)).
  destruct Hrest as [->|[mid ->]].
  - exists (censorWord (VStr local) ++ [AT] ++ censorWord (VStr label)), tld.
    split_and!; try done; try lia.
    + rewrite !length_app, censorDomain_dot_length, censorWord_length by done.
      by rewrite !length_app.
    + rewrite censorDomain_dot, decide_False by done. by rewrite <- !app_assoc.
    + exists (local ++ [AT] ++ label). by rewrite <- !app_assoc.
  - exists (censorWord (VStr local) ++ [AT] ++ censorWord (VStr label) ++ [DOT] ++ mid), tld.
    split_and!; try done; try lia.
    + rewrite !length_app, censorDomain_dot_length, censorWord_length by done.
      by rewrite !length_app.
    + rewrite censorDomain_dot, decide_False by done. by rewrite <- !app_assoc.
    + exists (local ++ [AT] ++ label ++ [DOT] ++ mid). by rewrite <- !app_assoc.
Qed.

Lemma censorEmail_of_valid_email_witness :
  ∃ out pre tld : jsstring,
    censorEmail (VStr (js "jane@mail.example.org")) = VStr out ∧
    length out = length (js "jane@mail.example.org") ∧
    out = pre ++ [DOT] ++ tld ∧
    (∃ before, js "jane@mail.example.org" = before ++ [DOT] ++ tld) ∧
    (2 ≤ length tld ≤ 6)%nat ∧ Forall (λ c, isLetter c = true) tld.
Proof.
  exact (censorEmail_of_valid_email (js "jane@mail.example.org") eq_refl).
Defined.

(** X8. isAlphabetic and isAlphanumeric accept exactly the values whose string
    form is non-empty and made of letters, resp. letters and digits; what
    isAlphabetic accepts isAlphanumeric accepts too.  The test is on the
    string form, so null and undefined are accepted by both. *)
Theorem isAlphabetic_isAlphanumeric (v : value) :
  (isAlphabetic v = true ↔
     ToString v ≠ [] ∧ Forall (λ c, isLetter c = true) (ToString v)) ∧
  (isAlphanumeric v = true ↔
     ToString v ≠ [] ∧ Forall (λ c, isAlnum c = true) (ToString v)) ∧
  (isAlphabetic v = true → isAlphanumeric v = true) ∧
  (ToString v = [] → isAlphabetic v = false ∧ isAlphanumeric v = false) ∧
  (v = VNull ∨ v = VUndefined → isAlphabetic v = true ∧ isAlphanumeric v = true).
Proof.
  assert (isAlphabetic v = true ↔
     ToString v ≠ [] ∧ Forall (λ c, isLetter c = true) (ToString v)) as Ha.
  { unfold isAlphabetic, alphabetPattern. rewrite test_lang. apply lang_plus_class. }
  assert (isAlphanumeric v = true ↔
     ToString v ≠ [] ∧ Forall (λ c, isAlnum c = true) (ToString v)) as Hn.
  { unfold isAlphanumeric, alphanumericPattern. rewrite test_lang.
    apply lang_plus_class. }
  split_and!; [done|done|..].
  - rewrite Ha, Hn. intros [Hne Hall]. split; [done|].
    eapply Forall_impl; [exact Hall|]. intros c Hc. unfold isAlnum. by rewrite Hc.
  - intros Hempty. split; apply not_true_iff_false; [rewrite Ha|rewrite Hn];
      by intros [? _].
  - by intros [-> | ->].
Qed.

Lemma dropWhile_all (p : N → bool) (s : jsstring) :
  dropWhile p s = [] ↔ Forall (λ c, p c = true) s.
Proof.
  induction s as [|c r IH]; simpl; [by split; [constructor|]|].
  destruct (p c) eqn:Hc.
  - rewrite IH. split; [by constructor|]. by intros [_ ?]%Forall_cons.
  - split; [done|]. intros [? _]%Forall_cons. congruence.
Qed.

Lemma dropWhile_head (p : N → bool) (s : jsstring) (c : N) (r : jsstring) :
  dropWhile p s = c :: r → p c = false.
Proof.
  induction s as [|d t IH]; simpl; [done|].
  destruct (p d) eqn:Hd; [done|]. by intros [= <- _].
Qed.

Lemma trim_empty_iff (s : jsstring) :
  trim s = [] ↔ Forall (λ c, isWhiteSpace c = true) s.
Proof.
  unfold trim. split.
  - intros H. apply (f_equal reverse) in H. rewrite reverse_involutive in H.
    change (reverse []) with (@nil N) in H.
    apply dropWhile_all in H. rewrite Forall_reverse in H.
    destruct (dropWhile isWhiteSpace s) as [|c r] eqn:Hd; [by apply dropWhile_all|].
    apply dropWhile_head in Hd. apply Forall_cons in H as [Hc _]. congruence.
  - intros H. apply dropWhile_all in H. by rewrite H.
Qed.

(** X9. On a string, isEmptyOrWhitespace says exactly that trimSpaces leaves
    nothing. *)
Theorem isEmptyOrWhitespace_iff_trim (s : jsstring) :
  isEmptyOrWhitespace (VStr s) = true ↔ trimSpaces s = [].
Proof.
  unfold isEmptyOrWhitespace, trimSpaces. rewrite trim_empty_iff, orb_true_iff, test_lang.
  rewrite lang_star_class. unfold ToString. split; [|auto].
  intros [H|H]; [|done]. destruct s; [constructor|done].
Qed.

(** ** censorFullName *)

Lemma dropWhile_app_all (p : N → bool) (g s : jsstring) :
  Forall (λ c, p c = true) g → dropWhile p (g ++ s) = dropWhile p s.
Proof. induction 1 as [|c g Hc _ IH]; simpl; [done|]. by rewrite Hc. Qed.

(** Trimming removes the white space around a text that starts and ends
    with other units. *)
Lemma trim_padded (lead trail core : jsstring) (a z : N) (mid1 mid2 : jsstring) :
  Forall (λ c, isWhiteSpace c = true) lead →
  Forall (λ c, isWhiteSpace c = true) trail →
  core = a :: mid1 → core = mid2 ++ [z] →
  isWhiteSpace a = false → isWhiteSpace z = false →
  trim (lead ++ core ++ trail) = core.
Proof.
  intros Hlead Htrail Hhead Hlast Ha Hz. unfold trim.
  rewrite dropWhile_app_all by done.
  assert (dropWhile isWhiteSpace (core ++ trail) = core ++ trail) as ->.
  { rewrite Hhead. simpl. by rewrite Ha. }
  rewrite reverse_app, dropWhile_app_all by (by apply Forall_reverse).
  rewrite Hlast at 1. rewrite reverse_snoc. simpl. rewrite Hz.
  by rewrite <- reverse_snoc, <- Hlast, reverse_involutive.
Qed.

Lemma splitRunsFrom_word (cur w rest : jsstring) (inrun : bool) :
  w ≠ [] → Forall (λ c, isWhiteSpace c = false) w →
  splitRunsFrom isWhiteSpace cur inrun (w ++ rest) =
    splitRunsFrom isWhiteSpace (cur ++ w) false rest.
Proof.
  intros Hne Hw. revert cur inrun Hne.
  induction Hw as [|c w Hc Hw IH]; intros cur inrun Hne; [done|].
  simpl. rewrite Hc. destruct w as [|d w].
  - done.
  - rewrite IH by done. by rewrite <- app_assoc.
Qed.

Lemma splitRunsFrom_gap (g rest : jsstring) :
  Forall (λ c, isWhiteSpace c = true) g →
  splitRunsFrom isWhiteSpace [] true (g ++ rest) =
    splitRunsFrom isWhiteSpace [] true rest.
Proof. induction 1 as [|c g Hc _ IH]; simpl; [done|]. by rewrite Hc. Qed.

Lemma splitRunsFrom_spaced (cur : jsstring) (more : list (jsstring * jsstring)) :
  Forall (λ gw, isGap gw.1 ∧ isWord gw.2) more →
  splitRunsFrom isWhiteSpace cur false (concat ((λ gw, gw.1 ++ gw.2) <$> more)) =
    cur :: (snd <$> more).
Proof.
  intros Hmore. revert cur.
  induction Hmore as [|[g w] more [[Hg1 Hg2] [Hw1 Hw2]] _ IH]; intros cur; [done|].
  rewrite fmap_cons. simpl in *. rewrite <- app_assoc.
  destruct Hg2 as [|c g Hc Hg]; [done|]. simpl. rewrite Hc.
  rewrite splitRunsFrom_gap by done.
  rewrite splitRunsFrom_word by done. by rewrite IH.
Qed.

Lemma spaced_ends_with_word (w : jsstring) (more : list (jsstring * jsstring)) :
  isWord w → Forall (λ gw, isGap gw.1 ∧ isWord gw.2) more →
  ∃ mid z, spaced w more = mid ++ [z] ∧ isWhiteSpace z = false.
Proof.
  intros Hw Hmore. revert w Hw.
  induction Hmore as [|[g w'] more [_ Hw'] _ IH]; intros w [Hne Hall].
  - unfold spaced. simpl. rewrite app_nil_r.
    destruct w as [|z mid _] using rev_ind; [done|].
    apply Forall_app in Hall as [_ [Hz _]%Forall_cons]. eauto.
  - destruct (IH w' Hw') as (mid & z & Heq & Hz).
    exists (w ++ g ++ mid), z. split; [|done].
    unfold spaced in *. rewrite fmap_cons. simpl.
    rewrite <- !app_assoc. by rewrite Heq.
Qed.

(** X1. censorFullName censors each word of a name on its own and joins the
    results with single spaces, whatever white space separates the words or
    surrounds the name. *)
Theorem censorFullName_words
    (lead trail w : jsstring) (more : list (jsstring * jsstring)) :
  Forall (λ c, isWhiteSpace c = true) lead →
  Forall (λ c, isWhiteSpace c = true) trail →
  isWord w → Forall (λ gw, isGap gw.1 ∧ isWord gw.2) more →
  censorFullName (VStr (lead ++ spaced w more ++ trail)) =
    join [SPACE]
      (censorWord (VStr w) :: ((λ gw, censorWord (VStr gw.2)) <$> more)).
Proof.
  intros Hlead Htrail Hw Hmore. unfold censorFullName.
  destruct (spaced_ends_with_word w more Hw Hmore) as (mid2 & z & Hlast & Hz).
  destruct Hw as [Hne Hall].
  destruct w as [|a w']; [done|].
  rewrite (trim_padded lead trail (spaced (a :: w') more) a z
             (w' ++ concat ((λ gw, gw.1 ++ gw.2) <$> more)) mid2); try done.
  - unfold splitRuns, spaced.
    rewrite splitRunsFrom_word by done. rewrite splitRunsFrom_spaced by done.
    rewrite fmap_cons, <- list_fmap_compose. done.
  - by apply Forall_cons in Hall as [? _].
Qed.

Lemma censorFullName_words_witness :
  censorFullName (VStr (js "  " ++ spaced (js "Ada") [(js "   ", js "Lovelace")] ++ js " ")) =
    js "A*a L******e".
Proof.
  apply (censorFullName_words (js "  ") (js " ") (js "Ada") [(js "   ", js "Lovelace")]).
  - by repeat constructor.
  - by repeat constructor.
  - split; [done|by repeat constructor].
  - repeat constructor; done.
Defined.

(** A name without any word, and a value that is not a string, give the
    empty string. *)
Lemma censorFullName_blank (s : jsstring) :
  Forall (λ c, isWhiteSpace c = true) s → censorFullName (VStr s) = [].
Proof.
  intros H. unfold censorFullName.
  by replace (trim s) with (@nil N) by (symmetry; by apply trim_empty_iff).
Qed.

(** ** replaceSpacesWithUnderscores and sanitizeFileName *)

(** Replacing the runs of a class by a text free of the class leaves no
    unit of the class. *)
Lemma replace_runs_none_left (cls : N → bool) (rep run s : jsstring) :
  Forall (λ c, cls c = false) rep →
  Forall (λ c, cls c = false) (replaceRunsFrom cls 1 rep run s).
Proof.
  intros Hrep.
  assert (∀ run, Forall (λ c, cls c = false) (flushRun 1 rep run)) as Hflush.
  { intros [|c r]; [constructor|done]. }
  revert run. induction s as [|c r IH]; intros run; simpl; [done|].
  destruct (cls c) eqn:Hc; [apply IH|].
  apply Forall_app. split; [done|]. by constructor.
Qed.

Lemma flushRun_length (rep run : jsstring) :
  (length rep ≤ 1)%nat → (length (flushRun 1 rep run) ≤ length run)%nat.
Proof. intros H. unfold flushRun. destruct run; simpl; lia. Qed.

Lemma replaceRunsFrom_length (cls : N → bool) (rep run s : jsstring) :
  (length rep ≤ 1)%nat →
  (length (replaceRunsFrom cls 1 rep run s) ≤ length run + length s)%nat.
Proof.
  intros Hrep. revert run. induction s as [|c r IH]; intros run; simpl.
  - pose proof (flushRun_length rep run Hrep). lia.
  - destruct (cls c).
    + specialize (IH (run ++ [c])). rewrite length_app in IH. simpl in IH. lia.
    + specialize (IH []). pose proof (flushRun_length rep run Hrep).
      rewrite length_app. simpl in *. lia.
Qed.

(** X10. The result of replaceSpacesWithUnderscores has no white space and is
    not longer than the input; applying the function again changes
    nothing, and a text without white space is returned as it is. *)
Theorem replaceSpacesWithUnderscores_result (s : jsstring) :
  Forall (λ c, isWhiteSpace c = false) (replaceSpacesWithUnderscores s) ∧
  (length (replaceSpacesWithUnderscores s) ≤ length s)%nat ∧
  replaceSpacesWithUnderscores (replaceSpacesWithUnderscores s) =
    replaceSpacesWithUnderscores s ∧
  (Forall (λ c, isWhiteSpace c = false) s → replaceSpacesWithUnderscores s = s).
Proof.
  assert (Forall (λ c, isWhiteSpace c = false) (replaceSpacesWithUnderscores s)) as H.
  { apply replace_runs_none_left. by repeat constructor. }
  unfold replaceSpacesWithUnderscores in *. split_and!.
  - done.
  - apply (replaceRunsFrom_length isWhiteSpace [UNDERSCORE] [] s). simpl. lia.
  - by apply replaceRuns_no_match.
  - by apply replaceRuns_no_match.
Qed.

Lemma wordChar_not_space (c : N) : isWordChar c = true → isWhiteSpace c = false.
Proof. intros H. class_solve. Qed.

Lemma removeNonWord_Forall (s : jsstring) :
  Forall (λ c, isWordChar c = true)
    (replaceEach (λ c, negb (isWordChar c)) (λ _, []) s).
Proof.
  induction s as [|c r IH]; simpl; [constructor|].
  destruct (isWordChar c) eqn:Hc; simpl; [by constructor|done].
Qed.

Lemma removeNonWord_fixed (s : jsstring) :
  Forall (λ c, isWordChar c = true) s →
  replaceEach (λ c, negb (isWordChar c)) (λ _, []) s = s.
Proof.
  induction 1 as [|c r Hc _ IH]; simpl; [done|]. by rewrite Hc, IH.
Qed.

Lemma removeNonWord_length (s : jsstring) :
  (length (replaceEach (λ c, negb (isWordChar c)) (λ _, []) s) ≤ length s)%nat.
Proof.
  induction s as [|c r IH]; simpl; [done|].
  destruct (isWordChar c); simpl; lia.
Qed.

Lemma sanitizeFileName_fixed (t : jsstring) :
  Forall (λ c, isWordChar c = true) t → sanitizeFileName t = t.
Proof.
  intros Ht. unfold sanitizeFileName.
  rewrite replaceRuns_no_match
    by first [lia | eapply Forall_impl; [exact Ht|apply wordChar_not_space]].
  by apply removeNonWord_fixed.
Qed.

(** X11. A sanitized file name is made of letters, digits and underscores only,
    is not longer than the input, and is left unchanged by sanitizing it
    again; a text already made of those units is returned as it is. *)
Theorem sanitizeFileName_result (s : jsstring) :
  Forall (λ c, isWordChar c = true) (sanitizeFileName s) ∧
  (length (sanitizeFileName s) ≤ length s)%nat ∧
  sanitizeFileName (sanitizeFileName s) = sanitizeFileName s ∧
  (Forall (λ c, isWordChar c = true) s → sanitizeFileName s = s).
Proof.
  assert (Forall (λ c, isWordChar c = true) (sanitizeFileName s)) as Hword
    by apply removeNonWord_Forall.
  split_and!; [done| |by apply sanitizeFileName_fixed|apply sanitizeFileName_fixed].
  unfold sanitizeFileName.
  etrans; [apply removeNonWord_length|].
  apply (replaceRunsFrom_length isWhiteSpace [UNDERSCORE] [] s). simpl. lia.
Qed.

(** X12. A name accepted by isAlphanumeric needs no sanitizing. *)
Theorem sanitizeFileName_alphanumeric (s : jsstring) :
  isAlphanumeric (VStr s) = true → sanitizeFileName s = s.
Proof.
  unfold isAlphanumeric, alphanumericPattern. rewrite test_lang, lang_plus_class.
  intros [_ Hall]. apply sanitizeFileName_fixed.
  eapply Forall_impl; [exact Hall|]. intros c Hc.
  unfold isAlnum, isLetter in Hc. unfold isWordChar.
  destruct (isUpperAZ c), (isLowerAZ c), (isDigit c); done.
Qed.

Lemma sanitizeFileName_alphanumeric_witness :
  sanitizeFileName (js "report2025") = js "report2025".
Proof. exact (sanitizeFileName_alphanumeric (js "report2025") eq_refl). Defined.

(** ** Case conversion: slugify, camelToSnake, snakeToCamel, toTitleCase,
    capitalizeFirstLetter *)

Lemma lowerUnit_lowerUnit (c : N) : lowerUnit (lowerUnit c) = lowerUnit c.
Proof. class_solve. Qed.

Lemma lower_upper_lower (c : N) : lowerUnit (upperUnit (lowerUnit c)) = lowerUnit c.
Proof. class_solve. Qed.

Lemma upperUnit_upperUnit (c : N) : upperUnit (upperUnit c) = upperUnit c.
Proof. class_solve. Qed.

Lemma wordChar_lowerUnit (c : N) : isWordChar (lowerUnit c) = isWordChar c.
Proof.
  unfold lowerUnit. destruct (isUpperAZ c) eqn:Hcap; [|done].
  transitivity true; [|symmetry]; class_solve.
Qed.

Lemma wordChar_upperUnit (c : N) : isWordChar (upperUnit c) = isWordChar c.
Proof.
  unfold upperUnit. destruct (isLowerAZ c) eqn:Hlow; [|done].
  transitivity true; [|symmetry]; class_solve.
Qed.

Lemma lowerUnit_ascii (c : N) : c < 128 → lowerUnit c < 128.
Proof. intros H. class_solve. Qed.

Lemma upperUnit_ascii (c : N) : c < 128 → upperUnit c < 128.
Proof. intros H. class_solve. Qed.

Lemma upper_of_lowered_capital (c : N) :
  isUpperAZ c = true →
  isLowerAZ (lowerUnit c) = true ∧ upperUnit (lowerUnit c) = c ∧ lowerUnit c < 128.
Proof. intros H. split_and!; class_solve. Qed.

Lemma capital_ascii (c : N) : isUpperAZ c = true → c < 128.
Proof. intros H. class_solve. Qed.

Lemma replaceUnderscoreLower_other (f : jsstring → jsstring) (u : N) (r : jsstring) :
  u ≠ UNDERSCORE →
  replaceUnderscoreLower f (u :: r) = u :: replaceUnderscoreLower f r.
Proof.
  intros Hu. simpl. destruct r as [|c r']; [done|].
  by destruct (N.eqb_spec u UNDERSCORE).
Qed.

(** The ASCII title-casing is idempotent, from any scanning state. *)
Lemma titleCase_ascii_again (prev : bool) (s : jsstring) :
  replaceWordStartFrom asciiUpper prev
    (asciiLower (replaceWordStartFrom asciiUpper prev (asciiLower s))) =
  replaceWordStartFrom asciiUpper prev (asciiLower s).
Proof.
  revert prev. induction s as [|c r IH]; intros prev; [done|].
  unfold asciiLower in *. rewrite fmap_cons. simpl.
  rewrite wordChar_lowerUnit.
  destruct (isWordChar c && negb prev) eqn:Hstart; simpl.
  - rewrite lower_upper_lower, wordChar_lowerUnit, Hstart. simpl.
    f_equal. apply IH.
  - rewrite lowerUnit_lowerUnit, wordChar_lowerUnit, Hstart. simpl.
    f_equal. apply IH.
Qed.

Lemma titleCase_ascii_units (prev : bool) (s : jsstring) :
  Forall (λ c, c < 128) s →
  Forall (λ c, c < 128) (replaceWordStartFrom asciiUpper prev (asciiLower s)) ∧
  length (replaceWordStartFrom asciiUpper prev (asciiLower s)) = length s.
Proof.
  intros Hs. revert prev. induction Hs as [|c r Hc _ IH]; intros prev; [done|].
  unfold asciiLower in *. rewrite fmap_cons. simpl.
  destruct (IH (isWordChar (lowerUnit c))) as [IH1 IH2].
  destruct (isWordChar (lowerUnit c) && negb prev); simpl; split;
    first [by rewrite IH2 | constructor; [|done]];
    auto using lowerUnit_ascii, upperUnit_ascii.
Qed.

Section CaseConversionMore.

Variable toLowerCase toUpperCase : jsstring → jsstring.

Hypothesis toLowerCase_ascii :
  ∀ s, Forall (λ c, c < 128) s → toLowerCase s = asciiLower s.
Hypothesis toUpperCase_ascii :
  ∀ s, Forall (λ c, c < 128) s → toUpperCase s = asciiUpper s.
Hypothesis toLowerCase_no_capital :
  ∀ s, Forall (λ c, isUpperAZ c = false) (toLowerCase s).

(** X13. The texts slugify returns unchanged are exactly those made of
    [a-z0-9_-] without two adjacent dashes, and every result of slugify is
    one of them. *)
Theorem slugify_fixed_points (y : jsstring) :
  (slugify toLowerCase y = y ↔
     Forall (λ c, isSlugChar c = true) y ∧ noDoubleDash y) ∧
  Forall (λ c, isSlugChar c = true) (slugify toLowerCase y) ∧
  noDoubleDash (slugify toLowerCase y).
Proof.
  pose proof (slugify_shape toLowerCase toLowerCase_no_capital y) as Hshape.
  split; [|done]. split.
  - intros Hfix. by rewrite Hfix in Hshape.
  - intros [Hchars Hnd]. by apply slugify_fixes_slugs.
Qed.

(** X14. On ASCII text without an underscore, snakeToCamel undoes camelToSnake,
    and camelToSnake leaves no capital letter. *)
Theorem snakeToCamel_camelToSnake (x : jsstring) :
  Forall (λ c, c < 128 ∧ c ≠ UNDERSCORE) x →
  snakeToCamel toUpperCase (camelToSnake toLowerCase x) = x ∧
  Forall (λ c, isUpperAZ c = false) (camelToSnake toLowerCase x).
Proof.
  unfold snakeToCamel, camelToSnake.
  induction 1 as [|c r [Hc Hu] _ [IH1 IH2]]; [by split; [|constructor]|].
  cbn [replaceEach]. destruct (isUpperAZ c) eqn:Hcap.
  - destruct (upper_of_lowered_capital c Hcap) as (Hlow & Hup & Hascii).
    rewrite toLowerCase_ascii by (by repeat constructor).
    change (asciiLower [c]) with [lowerUnit c]. split.
    + cbn [app replaceUnderscoreLower]. rewrite N.eqb_refl, Hlow. simpl.
      rewrite toUpperCase_ascii by (by repeat constructor).
      change (asciiUpper [lowerUnit c]) with [upperUnit (lowerUnit c)].
      rewrite Hup. simpl. f_equal. exact IH1.
    + repeat constructor; [|done]. apply lowerUnit_not_capital.
  - split.
    + cbn [app]. rewrite replaceUnderscoreLower_other by done. f_equal. exact IH1.
    + by constructor.
Qed.

(** X15. On ASCII text toTitleCase keeps the length and is idempotent. *)
Theorem toTitleCase_ascii (s : jsstring) :
  Forall (λ c, c < 128) s →
  length (toTitleCase toLowerCase toUpperCase s) = length s ∧
  toTitleCase toLowerCase toUpperCase (toTitleCase toLowerCase toUpperCase s) =
    toTitleCase toLowerCase toUpperCase s.
Proof.
  assert (∀ prev t, Forall (λ c, c < 128) t →
            replaceWordStartFrom (λ m, toUpperCase m) prev t =
            replaceWordStartFrom asciiUpper prev t) as Hup.
  { intros prev t Ht. revert prev.
    induction Ht as [|c r Hc _ IH]; intros prev; [done|]. simpl.
    rewrite IH. by rewrite toUpperCase_ascii by (by repeat constructor). }
  assert (∀ t, Forall (λ c, c < 128) t →
            toTitleCase toLowerCase toUpperCase t =
            replaceWordStartFrom asciiUpper false (asciiLower t)) as Hspec.
  { intros t Ht. unfold toTitleCase. rewrite toLowerCase_ascii by done.
    apply Hup. unfold asciiLower. apply Forall_fmap.
    eapply Forall_impl; [exact Ht|]. apply lowerUnit_ascii. }
  intros Hs. destruct (titleCase_ascii_units false s Hs) as [Hascii Hlen].
  rewrite (Hspec s Hs). split; [done|].
  rewrite Hspec by done. apply titleCase_ascii_again.
Qed.

(** X16. capitalizeFirstLetter returns the empty string for an empty string or
    a value that is not a string; on a string that starts with an ASCII
    unit it changes that unit only, to its upper-case form, keeps the
    length, and is idempotent. *)
Theorem capitalizeFirstLetter_ascii (c : N) (r : jsstring) :
  c < 128 →
  capitalizeFirstLetter toUpperCase (VStr (c :: r)) = upperUnit c :: r ∧
  capitalizeFirstLetter toUpperCase
    (VStr (capitalizeFirstLetter toUpperCase (VStr (c :: r)))) =
    capitalizeFirstLetter toUpperCase (VStr (c :: r)) ∧
  capitalizeFirstLetter toUpperCase (VStr []) = [] ∧
  (∀ v, (∀ t, v ≠ VStr t) → capitalizeFirstLetter toUpperCase v = []).
Proof.
  intros Hc.
  assert (∀ d t, d < 128 →
            capitalizeFirstLetter toUpperCase (VStr (d :: t)) = upperUnit d :: t) as Hcap.
  { intros d t Hd. unfold capitalizeFirstLetter. simpl.
    change (charAt (d :: t) 0) with [d].
    rewrite toUpperCase_ascii by (by repeat constructor).
    unfold slice. cbn [length Z.ltb Z.compare].
    replace (Z.to_nat (Z.min 1 (Z.of_nat (S (length t))))) with 1%nat by lia.
    done. }
  split_and!.
  - by apply Hcap.
  - rewrite !Hcap by auto using upperUnit_ascii. by rewrite upperUnit_upperUnit.
  - done.
  - intros v Hv. destruct v; try done. by destruct (Hv s).
Qed.

End CaseConversionMore.

Lemma slugify_fixed_points_witness :
  slugify asciiLower (js "my-first_post-2") = js "my-first_post-2" ↔
    Forall (λ c, isSlugChar c = true) (js "my-first_post-2")
    ∧ noDoubleDash (js "my-first_post-2").
Proof.
  apply (slugify_fixed_points asciiLower).
  - intros s _. reflexivity.
  - apply asciiLower_no_capital.
Defined.

Lemma snakeToCamel_camelToSnake_witness :
  snakeToCamel asciiUpper (camelToSnake asciiLower (js "userFirstName")) =
    js "userFirstName".
Proof.
  apply (snakeToCamel_camelToSnake asciiLower asciiUpper).
  - intros s _. reflexivity.
  - intros s _. reflexivity.
  - repeat constructor; done.
Defined.

Lemma toTitleCase_ascii_witness :
  length (toTitleCase asciiLower asciiUpper (js "the QUICK brown-fox")) =
    length (js "the QUICK brown-fox").
Proof.
  apply (toTitleCase_ascii asciiLower asciiUpper).
  - intros s _. reflexivity.
  - intros s _. reflexivity.
  - repeat constructor.
Defined.

Lemma capitalizeFirstLetter_ascii_witness :
  capitalizeFirstLetter asciiUpper (VStr (js "hello")) = js "Hello".
Proof.
  apply (capitalizeFirstLetter_ascii asciiUpper).
  - intros s _. reflexivity.
  - reflexivity.
Defined.

(** ** The storage wrapper on a valid kind *)

Lemma area_set_area (r : StorageRef) (a : StorageArea) (w : World) :
  area r (set_area r a w) = a.
Proof. by destruct r. Qed.

Lemma area_set_area_other (r r' : StorageRef) (a : StorageArea) (w : World) :
  r' ≠ r → area r' (set_area r a w) = area r' w.
Proof. by destruct r, r'. Qed.

Lemma console_set_area (r : StorageRef) (a : StorageArea) (w : World) :
  console (set_area r a w) = console w.
Proof. by destruct r. Qed.

Lemma area_getItem_setItem (k v : jsstring) (a : StorageArea) :
  area_getItem k (area_setItem k v a) = Some v.
Proof.
  induction a as [|[k' v'] a IH]; simpl.
  - by rewrite decide_True.
  - destruct (decide (k' = k)) as [->|Hne]; simpl.
    + by rewrite decide_True.
    + by rewrite decide_False.
Qed.

Lemma area_getItem_setItem_other (k k' v : jsstring) (a : StorageArea) :
  k' ≠ k → area_getItem k' (area_setItem k v a) = area_getItem k' a.
Proof.
  intros Hne. induction a as [|[k0 v0] a IH]; simpl.
  - by rewrite decide_False.
  - destruct (decide (k0 = k)) as [->|Hk0]; simpl.
    + by rewrite !decide_False.
    + destruct (decide (k0 = k')); [done|apply IH].
Qed.

Lemma area_getItem_removeItem (k : jsstring) (a : StorageArea) :
  area_getItem k (area_removeItem k a) = None.
Proof.
  unfold area_removeItem. induction a as [|[k' v'] a IH]; simpl; [done|].
  destruct (decide (k' = k)) as [->|Hne].
  - by rewrite bool_decide_eq_true_2.
  - rewrite bool_decide_eq_false_2 by done. simpl. by rewrite decide_False.
Qed.

Lemma area_getItem_removeItem_other (k k' : jsstring) (a : StorageArea) :
  k' ≠ k → area_getItem k' (area_removeItem k a) = area_getItem k' a.
Proof.
  intros Hne. unfold area_removeItem. induction a as [|[k0 v0] a IH]; simpl; [done|].
  destruct (decide (k0 = k)) as [->|Hk0].
  - rewrite bool_decide_eq_true_2 by done. simpl. by rewrite decide_False.
  - rewrite bool_decide_eq_false_2 by done. simpl.
    destruct (decide (k0 = k')); [done|apply IH].
Qed.

Lemma area_setItem_length (k v : jsstring) (a : StorageArea) :
  length (area_setItem k v a) =
    match area_getItem k a with
    | Some _ => length a
    | None => S (length a)
    end.
Proof.
  induction a as [|[k' v'] a IH]; simpl; [done|].
  destruct (decide (k' = k)); simpl; [done|].
  rewrite IH. by destruct (area_getItem k a).
Qed.

Lemma area_setItem_listed (k v : jsstring) (a : StorageArea) :
  ∃ i : nat, (i < length (area_setItem k v a))%nat ∧
             area_setItem k v a !! i = Some (k, v).
Proof.
  induction a as [|[k' v'] a (i & Hi & IH)]; simpl.
  - exists 0%nat. split; [simpl; lia|done].
  - destruct (decide (k' = k)).
    + exists 0%nat. split; [simpl; lia|done].
    + exists (S i). split; [simpl; lia|done].
Qed.

Section StorageWrapperMore.

Variable JSON_parse : jsstring → option jsany.
Variable JSON_stringify : jsany → completion value.

(** What getItem returns on a valid kind. *)
Lemma getItem_valid (type k : value) (r : StorageRef) (w : World) :
  getStorage type = Normal r →
  getItem JSON_parse type k w =
    (Normal match area_getItem (STORAGE_PREFIX ++ ToString k) (area r w) with
            | None => Val VNull
            | Some raw => match JSON_parse raw with
                          | Some parsed => parsed
                          | None => Val (VStr raw)
                          end
            end, w).
Proof.
  intros Hr. unfold getItem, try_catch, bind, lift, Storage_getItem. rewrite Hr.
  cbn [ToStringOrThrow].
  destruct (area_getItem _ _) as [raw|]; [|done]. by destruct (JSON_parse raw).
Qed.

(** What getItem returns depends on the storage areas only. *)
Lemma getItem_areas (type k : value) (w w' : World) :
  (∀ r, area r w' = area r w) →
  (getItem JSON_parse type k w').1 = (getItem JSON_parse type k w).1.
Proof.
  intros Hareas. destruct (getStorage type) as [r|e] eqn:Hr.
  - rewrite !(getItem_valid type k r) by done. cbn [fst]. by rewrite Hareas.
  - unfold getItem, try_catch, bind, lift. rewrite Hr. by cbn [ToStringOrThrow].
Qed.

(** setItem on a valid kind, for a text to store: the entry is written
    when the browser accepts it; when it refuses, the QuotaExceededError is
    logged, then the warning, and nothing is stored. *)
Lemma setItem_valid (type k : value) (v : jsany) (sv : value) (r : StorageRef) (w : World) :
  getStorage type = Normal r →
  (∃ s, v = Val (VStr s) ∧ sv = VStr s) ∨
    ((∀ s, v ≠ Val (VStr s)) ∧ JSON_stringify v = Normal sv) →
  setItem JSON_stringify type k v w =
    let a := area_setItem (STORAGE_PREFIX ++ ToString k) (ToString sv) (area r w) in
    match refusal w r a with
    | None => (Normal tt, set_area r a w)
    | Some message =>
        (Normal tt,
         (console_write LevelWarn
            [VStr (ToString type ++ js "Storage quota exceeded! Could not store item '"
                   ++ ToString k ++ js "'.")]
            (logged_error
               [VStr (js "Error setting item '" ++ ToString k ++ js "' in "
                      ++ ToString type ++ js "Storage:");
                error_value (QuotaExceededError message)] w)).2)
    end.
Proof.
  intros Hr Hv.
  assert (bind (match v with
                | Val (VStr s) => ret (VStr s)
                | _ => lift (JSON_stringify v)
                end)
               (λ stringValue,
                  Storage_setItem r (STORAGE_PREFIX ++ ToString k) stringValue) w =
          Storage_setItem r (STORAGE_PREFIX ++ ToString k) sv w) as Hbody.
  { destruct Hv as [(s & -> & ->)|[Hns Hsv]]; [done|].
    unfold bind, lift.
    destruct v as [[]| |]; try (by rewrite Hsv); by destruct (Hns s). }
  unfold setItem, try_catch. unfold bind at 1 2. unfold lift at 1 2. rewrite Hr.
  cbn [ToStringOrThrow]. rewrite Hbody. unfold Storage_setItem. cbv zeta.
  destruct (refusal w r _) as [message|]; [|done].
  unfold bind, lift, logged_error, ToStringOrThrow, QuotaExceededError, err_name.
  cbn [console_write fst snd]. by rewrite decide_True.
Qed.

(** The storage areas after setItem: the entry is written when the kind is
    valid and the value could be converted, nothing changes otherwise. *)
Lemma setItem_areas (type k : value) (v : jsany) (w : World) :
  (∀ r, area r (setItem JSON_stringify type k v w).2 = area r w) ∨
  (∃ r x, getStorage type = Normal r ∧
          area r (setItem JSON_stringify type k v w).2 =
            area_setItem (STORAGE_PREFIX ++ ToString k) x (area r w) ∧
          ∀ r', r' ≠ r → area r' (setItem JSON_stringify type k v w).2 = area r' w).
Proof.
  assert (∀ e : JSError,
    ∀ r0, area r0
      (bind (lift (ToStringOrThrow k)) (λ keyText,
         bind (lift (ToStringOrThrow type)) (λ typeText,
           bind (console_write LevelError
                   [VStr (js "Error setting item '" ++ keyText ++ js "' in "
                          ++ typeText ++ js "Storage:"); error_value e])
             (λ _, bind (lift (err_name e)) (λ name,
                if decide (name = Some (js "QuotaExceededError")) then
                  console_write LevelWarn
                    [VStr (typeText ++ js "Storage quota exceeded! Could not store item '"
                           ++ keyText ++ js "'.")]
                else ret tt)))) w).2 = area r0 w) as Hcaught.
  { intros e r0. unfold bind, lift, ToStringOrThrow, console_write, ret.
    destruct (err_name e) as [name|e']; [|by destruct r0].
    case_decide; by destruct r0. }
  destruct (getStorage type) as [r|e] eqn:Hr.
  - assert ((∃ sv, (∃ s, v = Val (VStr s) ∧ sv = VStr s) ∨
                   ((∀ s, v ≠ Val (VStr s)) ∧ JSON_stringify v = Normal sv)) ∨
            (∃ e, (∀ s, v ≠ Val (VStr s)) ∧ JSON_stringify v = Throw e))
      as [[sv Hsv]|(e & Hns & He)].
    { destruct v as [[]| |]; try (left; eexists; left; eexists; by split);
        (destruct (JSON_stringify _) as [sv|e] eqn:Hs;
         [left; exists sv; right; by split | right; exists e; by split]). }
    + rewrite (setItem_valid type k v sv r w Hr Hsv). cbv zeta.
      destruct (refusal w r _) as [message|].
      * left. intros r0. by destruct r0.
      * right. eexists r, _. split_and!; [done|apply area_set_area|].
        intros r' Hne. by apply area_set_area_other.
    + left. intros r0.
      unfold setItem, try_catch. unfold bind at 1 2 3. unfold lift at 1 2 3.
      rewrite Hr. cbn [ToStringOrThrow].
      destruct v as [[]| |]; try (by destruct (Hns s)); rewrite He; apply Hcaught.
  - left. intros r0. unfold setItem, try_catch. unfold bind at 1. unfold lift at 1.
    rewrite Hr. apply Hcaught.
Qed.

(** X17. When the browser accepts the write, what setItem stores under a
    key getItem reads back under that key from the same area, after
    JSON.parse: a stored string comes back as the value it parses to when
    it is valid JSON, and unchanged otherwise; a value that is not a string
    comes back as what its JSON text parses to; nothing is written to the
    console. When the browser refuses the write with a QuotaExceededError,
    setItem still returns normally: it logs the error, then the quota
    warning, stores nothing, and getItem returns what it returned
    before. *)
Theorem setItem_then_getItem (type k : value) (r : StorageRef) (w : World) :
  getStorage type = Normal r →
  let entry := STORAGE_PREFIX ++ ToString k in
  (∀ s : jsstring,
     refusal w r (area_setItem entry s (area r w)) = None →
     let w1 := (setItem JSON_stringify type k (VStr s) w).2 in
     (getItem JSON_parse type k w1).1 =
       Normal (match JSON_parse s with Some parsed => parsed | None => Val (VStr s) end) ∧
     console w1 = console w) ∧
  (∀ (v : jsany) (text : jsstring),
     (∀ s, v ≠ Val (VStr s)) → JSON_stringify v = Normal (VStr text) →
     refusal w r (area_setItem entry text (area r w)) = None →
     let w1 := (setItem JSON_stringify type k v w).2 in
     (getItem JSON_parse type k w1).1 =
       Normal (match JSON_parse text with
               | Some parsed => parsed
               | None => Val (VStr text)
               end) ∧
     console w1 = console w) ∧
  (∀ (v : jsany) (text message : jsstring),
     v = Val (VStr text) ∨
       ((∀ s, v ≠ Val (VStr s)) ∧ JSON_stringify v = Normal (VStr text)) →
     refusal w r (area_setItem entry text (area r w)) = Some message →
     let w1 := (setItem JSON_stringify type k v w).2 in
     (setItem JSON_stringify type k v w).1 = Normal tt ∧
     (∀ r', area r' w1 = area r' w) ∧
     console w1 =
       console w ++
       [{| level := LevelError;
           args := [VStr (js "Error setting item '" ++ ToString k ++ js "' in "
                          ++ ToString type ++ js "Storage:");
                    error_value (QuotaExceededError message)] |};
        {| level := LevelWarn;
           args := [VStr (ToString type
                          ++ js "Storage quota exceeded! Could not store item '"
                          ++ ToString k ++ js "'.")] |}] ∧
     (getItem JSON_parse type k w1).1 = (getItem JSON_parse type k w).1).
Proof.
  intros Hr entry.
  assert (∀ (v : jsany) (text : jsstring),
    (∃ s, v = Val (VStr s) ∧ VStr text = VStr s) ∨
      ((∀ s, v ≠ Val (VStr s)) ∧ JSON_stringify v = Normal (VStr text)) →
    refusal w r (area_setItem entry text (area r w)) = None →
    let w1 := (setItem JSON_stringify type k v w).2 in
    (getItem JSON_parse type k w1).1 =
      Normal (match JSON_parse text with
              | Some parsed => parsed
              | None => Val (VStr text)
              end) ∧
    console w1 = console w) as Hread.
  { intros v text Hv Hacc w1. subst w1.
    rewrite (setItem_valid type k v (VStr text) r w Hr Hv). cbv zeta.
    change (ToString (VStr text)) with text. fold entry. rewrite Hacc. cbn [snd].
    rewrite (getItem_valid type k r) by done. cbn [fst]. fold entry.
    rewrite area_set_area, area_getItem_setItem. split; [done|].
    apply console_set_area. }
  split_and!.
  - intros s Hacc. apply Hread; [|done]. left. by exists s.
  - intros v text Hns Htext Hacc. apply Hread; [|done]. by right.
  - intros v text message Hv Hrefused w1. subst w1.
    assert ((∃ s, v = Val (VStr s) ∧ VStr text = VStr s) ∨
             ((∀ s, v ≠ Val (VStr s)) ∧ JSON_stringify v = Normal (VStr text))) as Hv'.
    { destruct Hv as [->|Hv]; [left; by exists text|by right]. }
    rewrite (setItem_valid type k v (VStr text) r w Hr Hv'). cbv zeta.
    change (ToString (VStr text)) with text. fold entry. rewrite Hrefused.
    cbn [fst snd]. split_and!; [done|..].
    + intros r'. by destruct r'.
    + unfold logged_error. cbn [console_write snd console].
      by rewrite <- app_assoc.
    + apply getItem_areas. intros r'. by destruct r'.
Qed.

(** X18. setItem on one entry does not change what getItem returns for another
    kind or for a key with another string form. *)
Theorem setItem_other_entry (type type' k k' : value) (v : jsany) (w : World) :
  type ≠ type' ∨ ToString k ≠ ToString k' →
  (getItem JSON_parse type' k' (setItem JSON_stringify type k v w).2).1 =
    (getItem JSON_parse type' k' w).1.
Proof.
  intros Hdiff.
  destruct (setItem_areas type k v w) as [Hsame|(r & x & Hr & Hw & Hother)].
  - by apply getItem_areas.
  - destruct (getStorage type') as [r'|e] eqn:Hr'.
    + rewrite !(getItem_valid type' k' r') by done. cbn [fst].
      assert (r' = r ∨ r' ≠ r) as [->|Hne] by (destruct r, r'; auto).
      * rewrite Hw. rewrite area_getItem_setItem_other; [done|].
        intros Heq%app_inv_head. destruct Hdiff as [Ht|Hk]; [|by rewrite Heq in Hk].
        apply Ht. apply getStorage_valid in Hr as Hv. apply getStorage_valid in Hr' as Hv'.
        assert (∀ a b : value, Val a = Val b → a = b) as Hinj by (by intros a b [= ->]).
        destruct Hv as [Hv%Hinj|Hv%Hinj], Hv' as [Hv'%Hinj|Hv'%Hinj];
          subst type type'; try done;
          rewrite getStorage_local, getStorage_session in *; congruence.
      * by rewrite Hother.
    + unfold getItem, try_catch, bind, lift. rewrite Hr'. by cbn [ToStringOrThrow].
Qed.

(** X19. After removeItem, getItem returns null for that key, and what it
    returns for a key with another string form is as before. *)
Theorem removeItem_then_getItem (type k k' : value) (w : World) :
  (getItem JSON_parse type k (removeItem type k w).2).1 = Normal VNull ∧
  (ToString k' ≠ ToString k →
   (getItem JSON_parse type k' (removeItem type k w).2).1 =
     (getItem JSON_parse type k' w).1).
Proof.
  destruct (getStorage type) as [r|e] eqn:Hr.
  - assert ((removeItem type k w).2 =
            set_area r (area_removeItem (STORAGE_PREFIX ++ ToString k) (area r w)) w)
      as ->.
    { unfold removeItem, try_catch, bind, lift, Storage_removeItem. by rewrite Hr. }
    rewrite !(getItem_valid type _ r) by done. cbn [fst].
    rewrite !area_set_area. split.
    + by rewrite area_getItem_removeItem.
    + intros Hne. rewrite area_getItem_removeItem_other; [done|].
      by intros Heq%app_inv_head.
  - unfold getItem, try_catch, bind, lift. rewrite Hr. by cbn [ToStringOrThrow].
Qed.

(** X20. clear empties the whole area of the given kind, entries written without
    the wrapper's prefix included, and leaves the other area alone:
    afterwards length is 0 and getItem returns null for every key. *)
Theorem clear_empties_area (type : value) (r : StorageRef) (w : World) :
  getStorage type = Normal r →
  let w1 := (clear type w).2 in
  area r w1 = [] ∧
  (∀ r', r' ≠ r → area r' w1 = area r' w) ∧
  console w1 = console w ∧
  (length_ type w1).1 = Normal (VNum 0) ∧
  (∀ k : value, (getItem JSON_parse type k w1).1 = Normal VNull).
Proof.
  intros Hr w1.
  assert (w1 = set_area r [] w) as ->.
  { subst w1. unfold clear, try_catch, bind, lift, Storage_clear. by rewrite Hr. }
  split_and!.
  - apply area_set_area.
  - intros r' Hne. by apply area_set_area_other.
  - apply console_set_area.
  - unfold length_, try_catch, bind, lift, ret, Storage_length. rewrite Hr. simpl.
    by rewrite area_set_area.
  - intros k. rewrite (getItem_valid type k r) by done. cbn [fst].
    by rewrite area_set_area.
Qed.

(** X21. length is the number of entries of the area. The index given to
    key is reduced modulo 2^32, as Storage.key does with its unsigned long
    argument: key(type, i) is null exactly when the reduced index is not
    below length (so key(type, -1) is null and key(type, -4294967296) is the
    first key). The entry setItem writes for a string value, when the
    browser accepts it, is counted by length and listed by key under the
    name the caller used, without the prefix. *)
Theorem key_and_length (type k : value) (r : StorageRef) (w : World) :
  getStorage type = Normal r →
  (length_ type w).1 = Normal (VNum (Z.of_nat (length (area r w)))) ∧
  (∀ i : Z, (key type i w).1 = Normal VNull ↔
            (Z.of_nat (length (area r w)) ≤ i mod 4294967296)%Z) ∧
  (∀ i : Z, (key type (i + 4294967296) w).1 = (key type i w).1) ∧
  (∀ s : jsstring,
     refusal w r (area_setItem (STORAGE_PREFIX ++ ToString k) s (area r w)) = None →
     let w1 := (setItem JSON_stringify type k (VStr s) w).2 in
     (length_ type w1).1 =
       Normal (VNum (Z.of_nat
         match area_getItem (STORAGE_PREFIX ++ ToString k) (area r w) with
         | Some _ => length (area r w)
         | None => S (length (area r w))
         end)) ∧
     ∃ i : nat, (i < length (area r w1))%nat ∧
                ∀ j : Z, (j mod 4294967296 = Z.of_nat i)%Z →
                         (key type j w1).1 = Normal (VStr (ToString k))).
Proof.
  intros Hr.
  assert (∀ w0, (length_ type w0).1 = Normal (VNum (Z.of_nat (length (area r w0))))) as Hlen.
  { intros w0. unfold length_, try_catch, bind, lift, ret, Storage_length.
    by rewrite Hr. }
  assert (∀ w0 i, (key type i w0).1 =
            Normal match area_key i (area r w0) with
                   | Some pk =>
                       if ToBoolean (VStr pk) && startsWith pk STORAGE_PREFIX
                       then VStr (drop (length STORAGE_PREFIX) pk)
                       else VStr pk
                   | None => VNull
                   end) as Hkey.
  { intros w0 i. unfold key, try_catch, bind, lift, ret, Storage_key. rewrite Hr.
    simpl. destruct (area_key i (area r w0)) as [pk|]; [|done].
    by destruct (_ && _). }
  split_and!.
  - apply Hlen.
  - intros i. rewrite Hkey. unfold area_key.
    pose proof (Z.mod_pos_bound i 4294967296 eq_refl) as Hmod.
    destruct (area r w !! Z.to_nat (i mod 4294967296)) as [[pk pv]|] eqn:Hi; simpl.
    + apply lookup_lt_Some in Hi. split.
      * by destruct (_ && _).
      * intros ?; lia.
    + apply lookup_ge_None in Hi. split; [intros _; lia|done].
  - intros i. rewrite !Hkey. unfold area_key.
    replace ((i + 4294967296) mod 4294967296)%Z with (i mod 4294967296)%Z; [done|].
    rewrite <- (Z.mul_1_l 4294967296) at 2. by rewrite Z.mod_add.
  - intros s Hacc w1.
    assert (area r w1 = area_setItem (STORAGE_PREFIX ++ ToString k) s (area r w)) as Hw1.
    { subst w1.
      rewrite (setItem_valid type k (VStr s) (VStr s) r w Hr)
        by (left; by exists s).
      cbv zeta. change (ToString (VStr s)) with s. rewrite Hacc.
      apply area_set_area. }
    split.
    + rewrite Hlen, Hw1. by rewrite area_setItem_length.
    + destruct (area_setItem_listed (STORAGE_PREFIX ++ ToString k) s (area r w))
        as (i & Hi & Hlook).
      exists i. rewrite Hw1. split; [done|]. intros j Hj.
      rewrite Hkey, Hw1. unfold area_key.
      rewrite Hj, Nat2Z.id, Hlook. cbn [fmap option_fmap option_map fst].
      assert (ToBoolean (VStr (STORAGE_PREFIX ++ ToString k)) = true) as -> by done.
      assert (startsWith (STORAGE_PREFIX ++ ToString k) STORAGE_PREFIX = true) as ->.
      { unfold startsWith. apply bool_decide_eq_true. by rewrite take_app_length. }
      by rewrite drop_app_length.
Qed.


End StorageWrapperMore.

Lemma setItem_then_getItem_witness :
  (getItem parseLiteral (VStr (js "local")) (VStr (js "theme"))
     (setItem (λ _, Normal VUndefined) (VStr (js "local")) (VStr (js "theme"))
        (VStr (js "dark")) emptyWorld).2).1 = Normal (Val (VStr (js "dark"))) ∧
  (∀ r, area r (setItem (λ _, Normal VUndefined) (VStr (js "local")) (VStr (js "theme"))
                  (VStr (js "dark")) (quotaWorld 10)).2 = area r (quotaWorld 10)).
Proof.
  split.
  - exact (proj1 (proj1 (setItem_then_getItem parseLiteral (λ _, Normal VUndefined)
                           (VStr (js "local")) (VStr (js "theme")) LocalRef emptyWorld
                           eq_refl) (js "dark") eq_refl)).
  - exact (proj1 (proj2 (proj2 (proj2 (setItem_then_getItem parseLiteral
             (λ _, Normal VUndefined)
             (VStr (js "local")) (VStr (js "theme")) LocalRef (quotaWorld 10) eq_refl))
             (VStr (js "dark")) (js "dark") (js "The quota has been exceeded.")
             (or_introl eq_refl) eq_refl))).
Defined.

Lemma setItem_other_entry_witness :
  (getItem parseLiteral (VStr (js "session")) (VStr (js "theme"))
     (setItem (λ _, Normal VUndefined) (VStr (js "local")) (VStr (js "theme"))
        (VStr (js "dark")) emptyWorld).2).1 =
  (getItem parseLiteral (VStr (js "session")) (VStr (js "theme")) emptyWorld).1.
Proof.
  apply (setItem_other_entry parseLiteral (λ _, Normal VUndefined)).
  left. discriminate.
Defined.

Lemma clear_empties_area_witness :
  area SessionRef (clear (VStr (js "session")) (worldWithToken (js "t"))).2 = [] ∧
  area LocalRef (clear (VStr (js "session")) (worldWithToken (js "t"))).2 =
    [(AUTH_ENTRY, js "t")].
Proof.
  destruct (clear_empties_area parseLiteral (VStr (js "session")) SessionRef
              (worldWithToken (js "t")) eq_refl) as (Hempty & Hother & _).
  split; [exact Hempty|]. apply (Hother LocalRef). discriminate.
Defined.

Lemma key_and_length_witness :
  (length_ (VStr (js "local")) (worldWithToken (js "t"))).1 = Normal (VNum 1) ∧
  (key (VStr (js "local")) (-4294967296) (worldWithToken (js "t"))).1 =
    (key (VStr (js "local")) 0 (worldWithToken (js "t"))).1.
Proof.
  pose proof (key_and_length (λ _, Normal VUndefined) (VStr (js "local"))
                (VStr (js "auth")) LocalRef (worldWithToken (js "t")) eq_refl)
    as (Hlen & _ & Hwrap & _).
  split; [exact Hlen|]. symmetry. exact (Hwrap (-4294967296)%Z).
Defined.


(** ** censorPhone on any value *)

Lemma takeWhile_dropWhile (p : N → bool) (s : jsstring) :
  takeWhile p s ++ drop (length (takeWhile p s)) s = s.
Proof.
  induction s as [|c r IH]; simpl; [done|].
  destruct (p c); simpl; [by rewrite IH|done].
Qed.

(** X2. censorPhone keeps the length of the text it is given, and keeps the
    leading plus sign and digit run unmasked. *)
Theorem censorPhone_length (v : value) :
  length (censorPhone v) = length (ToString v) ∧
  (∀ m, matchCountryCode (ToString v) = Some m →
        take (length m) (censorPhone v) = m ∧ take (length m) (ToString v) = m).
Proof.
  rewrite censorPhone_ToString.
  destruct (matchCountryCode (ToString v)) as [m|] eqn:Hm.
  - assert (ToString v = m ++ drop (length m) (ToString v)) as Hsplit.
    { unfold matchCountryCode in Hm. destruct (ToString v) as [|c r]; [done|].
      destruct (c =? PLUS); [|done].
      destruct (takeWhile isDigit r) as [|d ds] eqn:Htw; [done|].
      injection Hm as <-. rewrite <- Htw. simpl.
      by rewrite takeWhile_dropWhile. }
    assert (slice (ToString v) (Z.of_nat (length m)) = drop (length m) (ToString v))
      as Hslice.
    { unfold slice.
      destruct (Z.ltb_spec (Z.of_nat (length m)) 0) as [?|_]; [lia|].
      rewrite Hsplit at 1. rewrite length_app.
      rewrite Z.min_l by lia. by rewrite Nat2Z.id. }
    rewrite Hslice. split.
    + rewrite length_app, censorWord_length.
      apply (f_equal length) in Hsplit. rewrite length_app in Hsplit. lia.
    + intros m' [= <-]. split; [by rewrite take_app_length|].
      rewrite Hsplit. by rewrite take_app_length.
  - split; [apply censorWord_length|done].
Qed.

(** ** The request interceptor and the JSON helpers *)

Section InterceptorMore.

Variable toUpperCase : jsstring → jsstring.
Variable JSON_parse : jsstring → option jsany.

(** X23. The request interceptor reads the token with getItem, which
    returns normally and changes nothing. When the token is falsy or has a
    string form, the interceptor completes normally: it writes one entry to
    the console and nothing to the storage areas, and it changes nothing of
    the configuration but the Authorization header. When the conversion of
    the token to a string throws (a truthy object without a string form,
    as the stored text {"toString":0} parses to), the interceptor throws
    that error from the template literal: nothing is logged and no
    configuration is returned. *)
Theorem requestInterceptor_frame (config : RequestConfig) (w : World) :
  ∃ authToken : jsany,
    getItem JSON_parse (VStr (js "local")) (VStr (js "auth")) w = (Normal authToken, w) ∧
    (truthy authToken = false ∨ (∃ text, ToStringOrThrow authToken = Normal text) →
     ∃ (config' : RequestConfig) (entry : LogEntry),
       requestInterceptor toUpperCase JSON_parse config w =
         (Normal config',
          {| localStorage := localStorage w; sessionStorage := sessionStorage w;
             console := console w ++ [entry]; refusal := refusal w |}) ∧
       level entry = LevelLog ∧
       url config' = url config ∧ method config' = method config ∧
       baseURL config' = baseURL config ∧ timeout config' = timeout config ∧
       ∀ name, name ≠ js "Authorization" →
               headers config' !! name = headers config !! name) ∧
    (∀ thrown : JSError,
       ToStringOrThrow authToken = Throw thrown →
       requestInterceptor toUpperCase JSON_parse config w = (Throw thrown, w)).
Proof.
  pose proof (getItem_local_auth JSON_parse w) as Hget.
  set (authToken := match area_getItem AUTH_ENTRY (localStorage w) with
                    | Some raw => _ | None => _ end) in Hget.
  exists authToken. split; [exact Hget|].
  rewrite (requestInterceptor_token toUpperCase JSON_parse config w authToken Hget).
  clearbody authToken. clear Hget. split.
  - intros Hprintable.
    assert (truthy authToken = false ∨
            (truthy authToken = true ∧ ∃ text, ToStringOrThrow authToken = Normal text))
      as [Hfalsy|[Htruthy [text Htext]]].
    { destruct (truthy authToken); [|by left].
      destruct Hprintable as [?|?]; [done|by right]. }
    + rewrite Hfalsy. eexists _, _. split; [reflexivity|]. by split_and!.
    + rewrite Htruthy, Htext. cbv zeta. eexists _, _. split; [reflexivity|].
      split_and!; try done.
      intros name Hname. simpl. by rewrite lookup_insert_ne.
  - intros thrown Hthrown. rewrite Hthrown.
    by destruct authToken as [v| |].
Qed.

(** X24. safeParse with JSON.parse as the parser is safeParseJSON; a result
    other than null shows that the text was valid JSON, and an invalid text
    always gives null. *)
Theorem safeParse_with_JSON_parse (v : jsany) :
  safeParse v (JSON_parse_fn JSON_parse) = safeParseJSON JSON_parse v ∧
  (safeParseJSON JSON_parse v ≠ VNull → isValidJSON JSON_parse v = true) ∧
  (isValidJSON JSON_parse v = false → safeParseJSON JSON_parse v = VNull).
Proof.
  unfold safeParse, JSON_parse_fn, safeParseJSON, isValidJSON.
  destruct (ToStringOrThrow v) as [text|e]; [|by split_and!].
  destruct (JSON_parse text); by split_and!.
Qed.

End InterceptorMore.

Lemma requestInterceptor_frame_witness :
  ∃ config',
    (requestInterceptor asciiUpper parseLiteral plainConfig
       (worldWithToken (js "abc.def.ghi"))).1 = Normal config' ∧
    url config' = url plainConfig.
Proof.
  destruct (requestInterceptor_frame asciiUpper parseLiteral plainConfig
              (worldWithToken (js "abc.def.ghi")))
    as (authToken & Hget & Hnormal & _).
  assert (authToken = Val (VStr (js "abc.def.ghi"))) as Htoken.
  { vm_compute in Hget. injection Hget as <-. reflexivity. }
  destruct Hnormal as (config' & entry & Hrun & _ & Hurl & _).
  { right. exists (js "abc.def.ghi"). rewrite Htoken. reflexivity. }
  exists config'. split; [|exact Hurl].
  rewrite Hrun. reflexivity.
Defined.

(** ** Configuration *)

Lemma env_or_value (env : gmap jsstring jsstring) (name default : jsstring) :
  default ≠ [] →
  ∃ s, env_or env name default = VStr s ∧ s ≠ [] ∧
       (∀ x, env !! name = Some x → x ≠ [] → s = x) ∧
       (env !! name = None ∨ env !! name = Some [] → s = default).
Proof.
  intros Hd. unfold env_or, process_env.
  destruct (env !! name) as [[|c x]|] eqn:Hlook; simpl.
  - exists default. split_and!; [done|done| |done].
    intros x [= <-]. done.
  - exists (c :: x). split_and!; [done|done| |].
    + by intros y [= <-].
    + intros [?|?]; done.
  - exists default. split_and!; [done|done| |done].
    intros x. done.
Qed.

(** X25. Every string option of the configuration object is a non-empty
    string for every environment: it is the value of its variable when
    that is set and not empty, and its default when the variable is unset
    or empty. *)
Theorem config_options_never_empty (env : gmap jsstring jsstring) :
  (∃ s, config_url_frontend env = VStr s ∧ s ≠ [] ∧
        (∀ x, env !! js "VITE_FRONT_URL" = Some x → x ≠ [] → s = x) ∧
        (env !! js "VITE_FRONT_URL" = None ∨ env !! js "VITE_FRONT_URL" = Some [] →
         s = js "http://localhost:3000")) ∧
  (∃ s, config_url_backend env = VStr s ∧ s ≠ [] ∧
        (∀ x, env !! js "VITE_BACK_URL" = Some x → x ≠ [] → s = x) ∧
        (env !! js "VITE_BACK_URL" = None ∨ env !! js "VITE_BACK_URL" = Some [] →
         s = js "http://localhost:3001")) ∧
  (∃ s, config_appName env = VStr s ∧ s ≠ [] ∧
        (∀ x, env !! js "VITE_APP_NAME" = Some x → x ≠ [] → s = x) ∧
        (env !! js "VITE_APP_NAME" = None ∨ env !! js "VITE_APP_NAME" = Some [] →
         s = js "MyApp")) ∧
  (∃ s, config_environment env = VStr s ∧ s ≠ [] ∧
        (∀ x, env !! js "VITE_ENVIRONMENT" = Some x → x ≠ [] → s = x) ∧
        (env !! js "VITE_ENVIRONMENT" = None ∨ env !! js "VITE_ENVIRONMENT" = Some [] →
         s = js "development")) ∧
  (∃ s, config_jwt_secret env = VStr s ∧ s ≠ [] ∧
        (∀ x, env !! js "VITE_JWT_SECRET" = Some x → x ≠ [] → s = x) ∧
        (env !! js "VITE_JWT_SECRET" = None ∨ env !! js "VITE_JWT_SECRET" = Some [] →
         s = js "secret")).
Proof.
  split_and!; by apply env_or_value.
Qed.

Lemma config_options_never_empty_witness :
  config_appName {[ js "VITE_APP_NAME" := js "Shop" ]} = VStr (js "Shop") ∧
  config_environment {[ js "VITE_APP_NAME" := js "Shop" ]} = VStr (js "development").
Proof.
  destruct (config_options_never_empty {[ js "VITE_APP_NAME" := js "Shop" ]})
    as (_ & _ & (name & Hname & _ & Hset & _) & (environment & Henv & _ & _ & Hunset) & _).
  split.
  - rewrite Hname. f_equal. apply Hset; [apply lookup_singleton_eq|discriminate].
  - rewrite Henv. f_equal. apply Hunset. left.
    apply lookup_singleton_ne. discriminate.
Defined.

(** ** Further statements on censorPhone and the pipeline module *)

(** X3. A plus sign followed only by digits is returned by censorPhone as
    it came, with no unit masked. *)
Theorem censorPhone_plus_digits_unmasked (ds : jsstring) :
  ds ≠ [] → Forall (λ c, isDigit c = true) ds →
  censorPhone (VStr (PLUS :: ds)) = PLUS :: ds.
Proof.
  intros Hne Hds. unfold censorPhone, matchCountryCode.
  rewrite N.eqb_refl, takeWhile_all by done.
  destruct ds as [|d ds]; [done|].
  assert (slice (PLUS :: d :: ds) (Z.of_nat (length (PLUS :: d :: ds))) = []) as ->.
  { unfold slice.
    destruct (Z.ltb_spec (Z.of_nat (length (PLUS :: d :: ds))) 0) as [Hlt|_]; [lia|].
    rewrite Z.min_id, Nat2Z.id. apply drop_all. }
  simpl. by rewrite app_nil_r.
Qed.

Lemma censorPhone_plus_digits_unmasked_witness :
  censorPhone (VStr (PLUS :: js "4915112345678")) = PLUS :: js "4915112345678".
Proof.
  apply (censorPhone_plus_digits_unmasked (js "4915112345678"));
    [done|by repeat constructor].
Defined.

(** X26. With BASE_URL set, loading the pipeline module refuses the empty
    string like an unset variable and otherwise creates the instance with
    that base URL, a timeout of 10000 and the JSON headers, writing nothing
    to the console. *)
Theorem pipeline_module_with_base_url
    (env : gmap jsstring jsstring) (w : World) (base : jsstring) :
  env !! js "BASE_URL" = Some base →
  loadPipelineModule env w =
    (if decide (base = []) then
       (Throw (Error (js "BASE_URL environment variable is not set!")),
        logged_error [VStr (js "BASE_URL environment variable is not set!")] w)
     else (Normal (axios_create (VStr base)), w)) ∧
  timeout (defaults (axios_create (VStr base))) = 10000%Z ∧
  baseURL (defaults (axios_create (VStr base))) = VStr base ∧
  headers (defaults (axios_create (VStr base))) !! js "Content-Type" =
    Some (js "application/json") ∧
  headers (defaults (axios_create (VStr base))) !! js "Accept" =
    Some (js "application/json").
Proof.
  intros Hset. split_and!; [by apply pipeline_module_base_url|done|done|..].
  - simpl. apply lookup_insert_eq.
  - simpl. rewrite lookup_insert_ne by done. apply lookup_singleton_eq.
Qed.

Lemma pipeline_module_with_base_url_witness :
  loadPipelineModule {[ js "BASE_URL" := js "https://api.example.com" ]} emptyWorld =
    (Normal (axios_create (VStr (js "https://api.example.com"))), emptyWorld).
Proof.
  apply (pipeline_module_with_base_url
           {[ js "BASE_URL" := js "https://api.example.com" ]}
           emptyWorld (js "https://api.example.com")).
  apply lookup_singleton_eq.
Defined.
